(** * ALT Linux OVAL vulnerability source (pkg/vulnsrc/alt)

    A shallow embedding of the reference resolver, the criteria walk, the
    advisory builder, the advisory merger, the vendor catalog and the query
    of the ALT vulnerability source of trivy-db, with the properties of the
    design document stated and settled on it.

    Go values are modelled as follows: [string] is a byte string, a slice is
    a [list] (a nil slice and an empty slice are both [[]]), a [map] is a
    [gmap], a struct is a [Record], a pair (value, error) is either a pair
    with an optional error or a [result].  The package-level variable
    [vendorCVEs] is threaded through every function that touches it. *)

From Stdlib Require Import Ascii.
From stdpp Require Import gmap strings list fin_maps.

(** ** Errors *)

(** The errors built with [xerrors.Errorf]; [Wrap] is the [%w] verb. *)
Inductive Error :=
  | ErrOpen (fileName : string)
  | ErrDecode (fileName : string)
  | ErrObjectRef (objectRef testID : string)
  | ErrStateRef (stateRef testID : string)
  | ErrUnmarshal
  | ErrStorage (what : string)
  | Wrap (msg : string) (err : Error).

Inductive result (A : Type) :=
  | Ok (a : A)
  | Err (e : Error).
Arguments Ok {A} a.
Arguments Err {A} e.

Definition is_Err {A} (r : result A) : Prop :=
  match r with Ok _ => False | Err _ => True end.

(** ** Go's [strings] package, as far as the source uses it *)

(** [strings.HasPrefix s p]. *)
Definition HasPrefix (s p : string) : bool := String.prefix p s.

(** [strings.Contains s sub]: [sub] occurs at some offset of [s]. *)
Fixpoint Contains (s sub : string) : bool :=
  HasPrefix s sub ||
  match s with
  | EmptyString => false
  | String _ s' => Contains s' sub
  end.

(** [strings.Split s sep] for a separator of one byte: the pieces between
    the occurrences of [sep], in order; one more piece than occurrences. *)
Fixpoint Split (s : string) (sep : ascii) : list string :=
  match s with
  | EmptyString => [""]
  | String c s' =>
      if decide (c = sep) then "" :: Split s' sep
      else match Split s' sep with
           | [] => [String c ""]
           | p :: ps => String c p :: ps
           end
  end.

(** [strings.Join l sep], used to state what [Split] returns. *)
Fixpoint Join (l : list string) (sep : ascii) : string :=
  match l with
  | [] => ""
  | [p] => p
  | p :: ps => p +:+ String sep (Join ps sep)
  end.

(** Lower-casing of the ASCII letters; Go's [strings.ToLower] agrees with
    it on ASCII strings. *)
Definition lowerByte (c : ascii) : ascii :=
  let n := nat_of_ascii c in
  if bool_decide (65 ≤ n ≤ 90) then ascii_of_nat (n + 32) else c.

Fixpoint asciiToLower (s : string) : string :=
  match s with
  | EmptyString => ""
  | String c s' => String (lowerByte c) (asciiToLower s')
  end.

(** ** Data model *)

(** The OVAL types the source files use ([types.go] declares them; the
    fields are the ones the code reads).  The one-field structs
    [test.Object] and [test.State] are flattened into the test. *)

Record RPMInfoObject := {
  Object_ID : string;
  Object_Name : string }.

Record Matcher := {
  Datatype : string;
  Operation : string;
  Text : string }.

Record RPMInfoState := {
  State_ID : string;
  State_Arch : Matcher;
  State_EVR : Matcher }.

Record RPMInfoTest := {
  Test_ID : string;
  ObjectRef : string;
  StateRef : string }.

Record resolvedTest := {
  Name : string;
  FixedVersion : string;
  Arch : string }.

Record Criterion := { TestRef : string }.

#[warnings="-register-all"]
Inductive Criteria :=
  | mkCriteria (Criterions : list Criterion) (Criterias : list Criteria).

Definition Criterions (cri : Criteria) : list Criterion :=
  match cri with mkCriteria cs _ => cs end.
Definition Criterias (cri : Criteria) : list Criteria :=
  match cri with mkCriteria _ cs => cs end.

Record pkg := {
  pkg_Name : string;
  pkg_FixedVersion : string;
  pkg_Arches : list string }.

Record Reference := {
  RefID : string;
  RefURL : string;
  Source : string }.

Record BDU := {
  BDU_ID : string;
  BDU_Impact : string;
  BDU_Href : string }.

Record CVE := {
  CVE_ID : string;
  CVE_Impact : string }.

Record Advisory := {
  Adv_Severity : string;
  BDUs : list BDU;
  CVEs : list CVE;
  AffectedCPEs : list string }.

Record Metadata := {
  Title : string;
  Description : string;
  References : list Reference;
  Meta_Advisory : Advisory }.

Record Definition_ := {
  Def_ID : string;
  Def_Metadata : Metadata;
  Def_Criteria : Criteria }.

(** [types.Severity]. *)
Inductive Severity :=
  | SeverityUnknown
  | SeverityLow
  | SeverityMedium
  | SeverityHigh
  | SeverityCritical.

Record CVEEntry := {
  Entry_ID : string;
  Entry_Severity : Severity }.

Record Entry := {
  Entry_CVEs : list CVEEntry;
  Entry_FixedVersion : string;
  AffectedCPEList : list string;
  Entry_Arches : list string }.

Record DefinitionSpecial := { Def_Entry : Entry }.

Record AdvisorySpecial := { Entries : list Entry }.

Record VendorCVE := {
  VCVE_CVE : CVEEntry;
  VCVE_Title : string;
  VCVE_Description : string;
  VCVE_References : list string }.

Record bucket := {
  packageName : string;
  vulnerabilityID : string }.

Global Instance Severity_eq_dec : EqDecision Severity.
Proof. solve_decision. Defined.
Global Instance CVEEntry_eq_dec : EqDecision CVEEntry.
Proof. solve_decision. Defined.
Global Instance Entry_eq_dec : EqDecision Entry.
Proof. solve_decision. Defined.
Global Instance bucket_eq_dec : EqDecision bucket.
Proof. solve_decision. Defined.
Global Instance bucket_countable : Countable bucket.
Proof.
  apply (inj_countable' (fun b => (packageName b, vulnerabilityID b))
                        (fun p => {| packageName := p.1; vulnerabilityID := p.2 |})).
  by intros [].
Defined.

(** [types.Advisory], the result of a query. *)
Record TAdvisory := {
  VulnerabilityID : string;
  VendorIDs : list string;
  TSeverity : Severity;
  TFixedVersion : string;
  TArches : list string }.

(** [types.VulnerabilityDetail], as [putVendorVulnerabilityDetail] fills it
    (the CVSS fields are constant there). *)
Record VulnerabilityDetail := {
  VD_Severity : Severity;
  VD_References : list string;
  VD_Title : string;
  VD_Description : string }.

(** The four JSON files of one product directory, each as the outcome of
    [unmarshalJSONFile] on it. *)
Record OVALDir := {
  objects_json : result (list RPMInfoObject);
  states_json : result (list RPMInfoState);
  tests_json : result (list RPMInfoTest);
  definitions_json : result (list Definition_) }.

(** ** ReferenceResolver (the file of [followTestRefs]) *)

Definition parseObjects (dir : OVALDir) : result (gmap string RPMInfoObject) :=
  match objects_json dir with
  | Err e => Err (Wrap "failed to unmarshal objects" e)
  | Ok objects =>
      Ok (foldl (fun objs obj => <[Object_ID obj := obj]> objs) ∅ objects)
  end.

Definition parseStates (dir : OVALDir) : result (gmap string RPMInfoState) :=
  match states_json dir with
  | Err e => Err (Wrap "failed to unmarshal states" e)
  | Ok ss =>
      Ok (foldl (fun states state => <[State_ID state := state]> states) ∅ ss)
  end.

Definition parseTests (dir : OVALDir) : result (list RPMInfoTest) :=
  match tests_json dir with
  | Err e => Err (Wrap "failed to unmarshal tests" e)
  | Ok tests => Ok tests
  end.

Definition parseDefinitions (dir : OVALDir) : result (list Definition_) :=
  match definitions_json dir with
  | Err e => Err (Wrap "failed to parse definitions" e)
  | Ok definitions => Ok definitions
  end.

(** [followTestRefs] returns the fact built so far together with the error,
    as the Go function does. *)
Definition followTestRefs (test : RPMInfoTest)
    (objects : gmap string RPMInfoObject) (states : gmap string RPMInfoState)
    : resolvedTest * option Error :=
  let t := {| Name := ""; FixedVersion := ""; Arch := "" |} in
  if decide (ObjectRef test = "") then (t, None)
  else match objects !! ObjectRef test with
  | None => (t, Some (ErrObjectRef (ObjectRef test) (Test_ID test)))
  | Some obj =>
      let t := {| Name := Object_Name obj; FixedVersion := ""; Arch := "" |} in
      if decide (StateRef test = "") then (t, None)
      else match states !! StateRef test with
      | None => (t, Some (ErrStateRef (StateRef test) (Test_ID test)))
      | Some state =>
          let t :=
            if bool_decide (Datatype (State_Arch state) = "string")
               && (bool_decide (Operation (State_Arch state) = "pattern match")
                   || bool_decide (Operation (State_Arch state) = "equals"))
            then {| Name := Name t; FixedVersion := FixedVersion t;
                    Arch := Text (State_Arch state) |}
            else t in
          let t :=
            if bool_decide (Datatype (State_EVR state) = "evr_string")
               && bool_decide (Operation (State_EVR state) = "less than")
            then {| Name := Name t; FixedVersion := Text (State_EVR state);
                    Arch := Arch t |}
            else t in
          (t, None)
      end
  end.

(** The loop of [resolveTests]: the first test that fails ends it. *)
Fixpoint resolveLoop (tests : list RPMInfoTest)
    (objects : gmap string RPMInfoObject) (states : gmap string RPMInfoState)
    (rpmTests : gmap string resolvedTest) : result (gmap string resolvedTest) :=
  match tests with
  | [] => Ok rpmTests
  | test :: rest =>
      match followTestRefs test objects states with
      | (_, Some err) => Err err
      | (t, None) => resolveLoop rest objects states (<[Test_ID test := t]> rpmTests)
      end
  end.

Definition resolveTests (dir : OVALDir) : result (gmap string resolvedTest) :=
  match parseObjects dir with
  | Err e => Err e
  | Ok objects =>
      match parseStates dir with
      | Err e => Err e
      | Ok states =>
          match parseTests dir with
          | Err e => Err e
          | Ok tests => resolveLoop tests objects states ∅
          end
      end
  end.

(** ** CriteriaEvaluator *)

(** The first loop of [walkCriterion], over the node's own test refs. *)
Definition walkOwn (tests : gmap string resolvedTest) (packages : list pkg)
    (c : Criterion) : list pkg :=
  match tests !! TestRef c with
  | None => packages
  | Some t =>
      let arches := if decide (Arch t = "") then [] else Split (Arch t) "|" in
      packages ++ [{| pkg_Name := Name t; pkg_FixedVersion := FixedVersion t;
                      pkg_Arches := arches |}]
  end.

Fixpoint walkCriterion (cri : Criteria) (tests : gmap string resolvedTest)
    : list pkg :=
  match cri with
  | mkCriteria criterions criterias =>
      let packages := foldl (walkOwn tests) [] criterions in
      if decide (length criterias = 0) then packages
      else
        (fix children (cs : list Criteria) (packages : list pkg) : list pkg :=
           match cs with
           | [] => packages
           | c :: cs' =>
               let pkgs := walkCriterion c tests in
               children cs'
                 (if decide (length pkgs ≠ 0) then packages ++ pkgs else packages)
           end) criterias packages
  end.

(** ** AdvisoryBuilder *)

Definition contains (lst : list string) (val : string) : bool :=
  existsb (fun e => bool_decide (e = val)) lst.

Definition toReferences (references : list Reference) : list string :=
  foldl (fun data r => data ++ [RefURL r]) [] references.

(** The scan returns at the first reference whose source is ["ALTPU"]. *)
Fixpoint vendorID (refs : list Reference) : string :=
  match refs with
  | [] => ""
  | ref :: rest =>
      if decide (Source ref = "ALTPU") then RefID ref else vendorID rest
  end.

(** The identifier scan of [vendorCVE]: [id] is overwritten at every
    reference whose RefID contains ["ALT"]. *)
Definition vendorCVE_id (refs : list Reference) : string :=
  foldl (fun id r => if Contains (RefID r) "ALT" then RefID r else id) "" refs.

Section Builder.

(** [strings.ToLower] of the Go standard library (Unicode aware). *)
Variable ToLower : string → string.

Definition severityFromImpact (sev : string) : Severity :=
  let s := ToLower sev in
  if decide (s = "low") then SeverityLow
  else if decide (s = "medium") then SeverityMedium
  else if decide (s = "high") then SeverityHigh
  else if decide (s = "critical") then SeverityCritical
  else SeverityUnknown.

Definition vendorCVE (metadata : Metadata) : CVEEntry :=
  {| Entry_ID := vendorCVE_id (References metadata);
     Entry_Severity := severityFromImpact (Adv_Severity (Meta_Advisory metadata)) |}.

(** The state of the loops of [parseOVAL]: the local map [defs] and the
    package-level slice [vendorCVEs]. *)
Record BuildState := {
  defs : gmap bucket DefinitionSpecial;
  vendorCVEs : list VendorCVE }.

(** The loop over the bulletins: state is [cveEntries] and [vendorCVEs]. *)
Definition bduStep (st : list CVEEntry * list VendorCVE) (bdu : BDU)
    : list CVEEntry * list VendorCVE :=
  let bduEntry := {| Entry_ID := BDU_ID bdu;
                     Entry_Severity := severityFromImpact (BDU_Impact bdu) |} in
  (st.1 ++ [bduEntry],
   st.2 ++ [{| VCVE_CVE := bduEntry; VCVE_Title := ""; VCVE_Description := "";
               VCVE_References := [BDU_Href bdu] |}]).

Definition cveStep (cveEntries : list CVEEntry) (cve : CVE) : list CVEEntry :=
  cveEntries ++ [{| Entry_ID := CVE_ID cve;
                    Entry_Severity := severityFromImpact (CVE_Impact cve) |}].

(** The body of the loop over the affected packages of one definition. *)
Definition pkgStep (advisory : Definition_) (st : BuildState) (affectedPkg : pkg)
    : BuildState :=
  let metadata := Def_Metadata advisory in
  let packageName_ := pkg_Name affectedPkg in
  let altID := vendorID (References metadata) in
  let vendorCve := vendorCVE metadata in
  let cveEntries := [vendorCve] in
  let vendorCVEs1 :=
    vendorCVEs st ++ [{| VCVE_CVE := vendorCve; VCVE_Title := Title metadata;
                         VCVE_Description := Description metadata;
                         VCVE_References := toReferences (References metadata) |}] in
  let '(cveEntries, vendorCVEs2) :=
    foldl bduStep (cveEntries, vendorCVEs1) (BDUs (Meta_Advisory metadata)) in
  let cveEntries := foldl cveStep cveEntries (CVEs (Meta_Advisory metadata)) in
  let defs' :=
    if decide (altID ≠ "") then
      <[ {| packageName := packageName_; vulnerabilityID := altID |} :=
         {| Def_Entry :=
              {| Entry_CVEs := cveEntries;
                 Entry_FixedVersion := pkg_FixedVersion affectedPkg;
                 AffectedCPEList := AffectedCPEs (Meta_Advisory metadata);
                 Entry_Arches := pkg_Arches affectedPkg |} |} ]> (defs st)
    else
      foldl (fun (defs : gmap bucket DefinitionSpecial) (cve : CVEEntry) =>
               <[ {| packageName := packageName_; vulnerabilityID := Entry_ID cve |} :=
                  {| Def_Entry :=
                       {| Entry_CVEs := [{| Entry_ID := "";
                                            Entry_Severity := Entry_Severity cve |}];
                          Entry_FixedVersion := pkg_FixedVersion affectedPkg;
                          AffectedCPEList := AffectedCPEs (Meta_Advisory metadata);
                          Entry_Arches := pkg_Arches affectedPkg |} |} ]> defs)
            (defs st) cveEntries in
  {| defs := defs'; vendorCVEs := vendorCVEs2 |}.

(** The body of the loop over the definitions. *)
Definition defStep (tests : gmap string resolvedTest) (st : BuildState)
    (advisory : Definition_) : BuildState :=
  if Contains (Def_ID advisory) "unaffected" then st
  else foldl (pkgStep advisory) st (walkCriterion (Def_Criteria advisory) tests).

(** [parseOVAL] on one product directory; the second component is the
    package-level [vendorCVEs] after the call. *)
Definition parseOVAL (dir : OVALDir) (vendorCVEs0 : list VendorCVE)
    : result (gmap bucket DefinitionSpecial) * list VendorCVE :=
  match resolveTests dir with
  | Err e => (Err e, vendorCVEs0)
  | Ok tests =>
      match parseDefinitions dir with
      | Err e => (Err e, vendorCVEs0)
      | Ok definitions =>
          let st := foldl (defStep tests)
                      {| defs := ∅; vendorCVEs := vendorCVEs0 |} definitions in
          (Ok (defs st), vendorCVEs st)
      end
  end.

End Builder.

(** ** AdvisoryMerger *)

(** Modelled from the spec: the helpers of [pkg/utils/strings] behind
    [ustrings.Merge], which is not among the source files.  The design
    document describes the result of [Merge] as the union of the two lists,
    order-preserving and without duplicates; [Unique] keeps every string of
    a list at its first occurrence. *)
Fixpoint Unique (l : list string) : list string :=
  match l with
  | [] => []
  | x :: l' => x :: filter (fun y => y ≠ x) (Unique l')
  end.

(** Modelled from the spec: [ustrings.Merge a b], the union of [a] and [b]
    in that order, each string once. *)
Definition Merge (a b : list string) : list string := Unique (a ++ b).

(** The test of the loop of [mergeAdvisories]; [slices.Equal] compares the
    two slices element by element, in order. *)
Definition sameVariant (e d : Entry) : bool :=
  bool_decide (Entry_FixedVersion e = Entry_FixedVersion d)
  && bool_decide (Entry_Arches e = Entry_Arches d).

(** One iteration of [for i := range old.Entries]. *)
Definition mergeStep (def : DefinitionSpecial) (st : list Entry * bool) (i : nat)
    : list Entry * bool :=
  match st.1 !! i with
  | None => st
  | Some e =>
      if sameVariant e (Def_Entry def) then
        (<[i := {| Entry_CVEs := Entry_CVEs e;
                   Entry_FixedVersion := Entry_FixedVersion e;
                   AffectedCPEList :=
                     Merge (AffectedCPEList e) (AffectedCPEList (Def_Entry def));
                   Entry_Arches := Entry_Arches e |}]> st.1, true)
      else st
  end.

(** The branch of [mergeAdvisories] for a bucket that exists. *)
Definition mergeBucket (old : AdvisorySpecial) (def : DefinitionSpecial)
    : AdvisorySpecial :=
  let '(entries, found) :=
    foldl (mergeStep def) (Entries old, false) (seq 0 (length (Entries old))) in
  {| Entries := if found then entries else entries ++ [Def_Entry def] |}.

(** The body of the loop of [mergeAdvisories]. *)
Definition mergeOne (bkt : bucket) (def : DefinitionSpecial)
    (advisories : gmap bucket AdvisorySpecial) : gmap bucket AdvisorySpecial :=
  match advisories !! bkt with
  | Some old => <[bkt := mergeBucket old def]> advisories
  | None => <[bkt := {| Entries := [Def_Entry def] |}]> advisories
  end.

(** [range defs] visits every key of the map once, in an order Go leaves
    open; [map_fold] visits them in the order of [map_to_list]. *)
Definition mergeAdvisories (advisories : gmap bucket AdvisorySpecial)
    (defs : gmap bucket DefinitionSpecial) : gmap bucket AdvisorySpecial :=
  map_fold mergeOne advisories defs.

(** ** Storage collaborator and the update run *)

(** The calls the source makes on [db.Operation]. *)
Inductive DBCall :=
  | PutDataSource
  | PutAdvisoryDetail (vulnerabilityID_ packageName_ : string) (advisory : AdvisorySpecial)
  | PutVulnerabilityID (vulnerabilityID_ : string)
  | PutVulnerabilityDetail (vulnerabilityID_ : string) (vuln : VulnerabilityDetail).

(** The process: the package-level [vendorCVEs] and the database, as the
    sequence of writes committed to it. *)
Record Process := {
  proc_vendorCVEs : list VendorCVE;
  proc_db : list DBCall }.

(** The input tree of [Update]: the outcome of [os.ReadDir] on the root,
    and for each branch the outcome of [os.ReadDir] on it. *)
Definition Tree := result (list (result (list OVALDir))).

Section Run.

Variable ToLower : string → string.

(** Whether the storage refuses a write. *)
Variable storageFails : DBCall → bool.

(** One write inside a transaction [tx]. *)
Definition put (msg : string) (c : DBCall) (tx : list DBCall)
    : result (list DBCall) :=
  if storageFails c then Err (Wrap msg (ErrStorage "")) else Ok (tx ++ [c]).

(** [BatchUpdate]: the writes of [fn] are committed together, or none. *)
Definition BatchUpdate (fn : list DBCall → result (list DBCall))
    (db : list DBCall) : result (list DBCall) :=
  match fn [] with
  | Err e => Err e
  | Ok tx => Ok (db ++ tx)
  end.

Definition putVendorVulnerabilityDetail (cve : VendorCVE) (tx : list DBCall)
    : result (list DBCall) :=
  let vuln := {| VD_Severity := Entry_Severity (VCVE_CVE cve);
                 VD_References := VCVE_References cve;
                 VD_Title := VCVE_Title cve;
                 VD_Description := VCVE_Description cve |} in
  match put "failed to save ALT Vendor vulnerability"
            (PutVulnerabilityDetail (Entry_ID (VCVE_CVE cve)) vuln) tx with
  | Err e => Err e
  | Ok tx =>
      put "failed to save the vulnerability ID"
          (PutVulnerabilityID (Entry_ID (VCVE_CVE cve))) tx
  end.

Fixpoint putVendorLoop (cves : list VendorCVE) (tx : list DBCall)
    : result (list DBCall) :=
  match cves with
  | [] => Ok tx
  | cve :: rest =>
      match putVendorVulnerabilityDetail cve tx with
      | Err e => Err e
      | Ok tx => putVendorLoop rest tx
      end
  end.

(** [putVendorCVEs] reads the package-level [vendorCVEs]. *)
Definition putVendorCVEs (p : Process) : result (list DBCall) :=
  BatchUpdate (putVendorLoop (proc_vendorCVEs p)) (proc_db p).

Fixpoint saveLoop (advisories : list (bucket * AdvisorySpecial)) (tx : list DBCall)
    : result (list DBCall) :=
  match advisories with
  | [] => Ok tx
  | (bkt, advisory) :: rest =>
      match put "failed to save ALT OVAL advisory"
                (PutAdvisoryDetail (vulnerabilityID bkt) (packageName bkt) advisory) tx with
      | Err e => Err e
      | Ok tx =>
          match put "failed to put severity"
                    (PutVulnerabilityID (vulnerabilityID bkt)) tx with
          | Err e => Err e
          | Ok tx => saveLoop rest tx
          end
      end
  end.

(** [save]; the buckets are written in the order of [map_to_list]. *)
Definition save (advisories : gmap bucket AdvisorySpecial) (db : list DBCall)
    : result (list DBCall) :=
  match BatchUpdate
          (fun tx =>
             match put "failed to put data source" PutDataSource tx with
             | Err e => Err e
             | Ok tx => saveLoop (map_to_list advisories) tx
             end) db with
  | Err e => Err (Wrap "batch update error" e)
  | Ok db => Ok db
  end.

(** The loop over the product directories of one branch. *)
Fixpoint productsLoop (products : list OVALDir)
    (advisories : gmap bucket AdvisorySpecial) (vendorCVEs0 : list VendorCVE)
    : result (gmap bucket AdvisorySpecial) * list VendorCVE :=
  match products with
  | [] => (Ok advisories, vendorCVEs0)
  | f :: rest =>
      match parseOVAL ToLower f vendorCVEs0 with
      | (Err e, v) => (Err (Wrap "failed to parse product OVAL" e), v)
      | (Ok definitions, v) =>
          productsLoop rest (mergeAdvisories advisories definitions) v
      end
  end.

(** The loop over the branches. *)
Fixpoint branchesLoop (branches : list (result (list OVALDir)))
    (advisories : gmap bucket AdvisorySpecial) (vendorCVEs0 : list VendorCVE)
    : result (gmap bucket AdvisorySpecial) * list VendorCVE :=
  match branches with
  | [] => (Ok advisories, vendorCVEs0)
  | branch :: rest =>
      match branch with
      | Err e => (Err (Wrap "failed to get directory products list" e), vendorCVEs0)
      | Ok products =>
          match productsLoop products advisories vendorCVEs0 with
          | (Err e, v) => (Err e, v)
          | (Ok advisories, v) => branchesLoop rest advisories v
          end
      end
  end.

(** [Update]: the error it returns, if any, and the process after it. *)
Definition Update (root : Tree) (p : Process) : option Error * Process :=
  match root with
  | Err e => (Some (Wrap "failed to get directory branch list" e), p)
  | Ok branches =>
      match branchesLoop branches ∅ (proc_vendorCVEs p) with
      | (Err e, v) => (Some e, {| proc_vendorCVEs := v; proc_db := proc_db p |})
      | (Ok advisories, v) =>
          let p1 := {| proc_vendorCVEs := v; proc_db := proc_db p |} in
          match putVendorCVEs p1 with
          | Err e => (Some (Wrap "put vendor cve error" e), p1)
          | Ok db1 =>
              match save advisories db1 with
              | Err e => (Some (Wrap "save error" e),
                          {| proc_vendorCVEs := v; proc_db := db1 |})
              | Ok db2 => (None, {| proc_vendorCVEs := v; proc_db := db2 |})
              end
          end
      end
  end.

End Run.

(** ** Query *)

Section Query.

(** [json.Unmarshal] of a stored value into an [AdvisorySpecial]. *)
Variable unmarshal : string → option AdvisorySpecial.

(** What [ForEachAdvisory] returns for a package: the stored values by
    vulnerability identifier, in the order the [range] visits them. *)
Variable ForEachAdvisory : string → result (list (string * string)).

(** The loop over the records of one entry. *)
Definition cveLoop (vulnID : string) (entry : Entry)
    (advisories : list TAdvisory) : list TAdvisory :=
  foldl (fun advisories cve =>
           let advisory :=
             if HasPrefix vulnID "CVE-" then
               {| VulnerabilityID := vulnID; VendorIDs := [];
                  TSeverity := Entry_Severity cve;
                  TFixedVersion := Entry_FixedVersion entry;
                  TArches := Entry_Arches entry |}
             else
               {| VulnerabilityID := Entry_ID cve; VendorIDs := [vulnID];
                  TSeverity := Entry_Severity cve;
                  TFixedVersion := Entry_FixedVersion entry;
                  TArches := Entry_Arches entry |} in
           advisories ++ [advisory])
        advisories (Entry_CVEs entry).

(** The loop over the entries of one stored advisory. *)
Definition entryLoop (vulnID cpe : string) (adv : AdvisorySpecial)
    (advisories : list TAdvisory) : list TAdvisory :=
  foldl (fun advisories entry =>
           if negb (contains (AffectedCPEList entry) cpe) then advisories
           else cveLoop vulnID entry advisories)
        advisories (Entries adv).

(** The loop over the stored advisories. *)
Fixpoint rawLoop (rawAdvisories : list (string * string)) (cpe : string)
    (advisories : list TAdvisory) : result (list TAdvisory) :=
  match rawAdvisories with
  | [] => Ok advisories
  | (vulnID, content) :: rest =>
      if decide (String.length content = 0) then rawLoop rest cpe advisories
      else match unmarshal content with
           | None => Err (Wrap "failed to unmarshal advisory JSON" ErrUnmarshal)
           | Some adv => rawLoop rest cpe (entryLoop vulnID cpe adv advisories)
           end
  end.

Definition Get (pkgName cpe : string) : result (list TAdvisory) :=
  match ForEachAdvisory pkgName with
  | Err e => Err (Wrap "unable to iterate advisories" e)
  | Ok rawAdvisories => rawLoop rawAdvisories cpe []
  end.

End Query.

(** ** Reference descriptions, in the words of the design document *)

(** The references whose source tag is the vendor patch-update tag. *)
Definition altpuRefs (refs : list Reference) : list Reference :=
  filter (fun r => Source r = "ALTPU") refs.

(** The references whose RefID is ALT-branded. *)
Definition altBrandedRefs (refs : list Reference) : list Reference :=
  filter (fun r => Contains (RefID r) "ALT" = true) refs.

(** The identifier the design document gives to the vendor's own record:
    the canonical vendor identifier when there is one, else the first
    ALT-branded reference. *)
Definition vendorCVE_id_doc (refs : list Reference) : string :=
  if decide (vendorID refs ≠ "") then vendorID refs
  else default "" (RefID <$> head (altBrandedRefs refs)).

(** A test has a dangling reference that [followTestRefs] reaches. *)
Definition dangling (test : RPMInfoTest)
    (objects : gmap string RPMInfoObject) (states : gmap string RPMInfoState)
    : Prop :=
  ObjectRef test ≠ "" ∧
  (objects !! ObjectRef test = None ∨
   (StateRef test ≠ "" ∧ states !! StateRef test = None)).

(** The condition of the design document: some non-empty reference of the
    test is absent from its table. *)
Definition dangling_doc (test : RPMInfoTest)
    (objects : gmap string RPMInfoObject) (states : gmap string RPMInfoState)
    : Prop :=
  (ObjectRef test ≠ "" ∧ objects !! ObjectRef test = None) ∨
  (StateRef test ≠ "" ∧ states !! StateRef test = None).

(** The test refs reachable from a node: its own, then those of each child
    in child order. *)
Fixpoint reachableRefs (cri : Criteria) : list string :=
  match cri with
  | mkCriteria criterions criterias =>
      map TestRef criterions ++
      (fix go (cs : list Criteria) : list string :=
         match cs with
         | [] => []
         | c :: cs' => reachableRefs c ++ go cs'
         end) criterias
  end.

(** The affected-package fact of a resolved test. *)
Definition factOf (t : resolvedTest) : pkg :=
  {| pkg_Name := Name t; pkg_FixedVersion := FixedVersion t;
     pkg_Arches := if decide (Arch t = "") then [] else Split (Arch t) "|" |}.

(** A byte occurs in a string. *)
Fixpoint occurs (c : ascii) (s : string) : Prop :=
  match s with
  | EmptyString => False
  | String c' s' => c' = c ∨ occurs c s'
  end.

Section BuilderDoc.

Variable ToLower : string → string.

(** The vulnerability records of a definition: the vendor's own, one per
    bulletin, one per CVE cross-reference. *)
Definition bduEntryOf (bdu : BDU) : CVEEntry :=
  {| Entry_ID := BDU_ID bdu;
     Entry_Severity := severityFromImpact ToLower (BDU_Impact bdu) |}.

Definition cveEntryOf (cve : CVE) : CVEEntry :=
  {| Entry_ID := CVE_ID cve;
     Entry_Severity := severityFromImpact ToLower (CVE_Impact cve) |}.

Definition recordsOf (metadata : Metadata) : list CVEEntry :=
  vendorCVE ToLower metadata
    :: map bduEntryOf (BDUs (Meta_Advisory metadata))
    ++ map cveEntryOf (CVEs (Meta_Advisory metadata)).

(** The vendor-catalog records of a definition: the vendor's own entry,
    then one per bulletin. *)
Definition ownRecord (metadata : Metadata) : VendorCVE :=
  {| VCVE_CVE := vendorCVE ToLower metadata;
     VCVE_Title := Title metadata;
     VCVE_Description := Description metadata;
     VCVE_References := map RefURL (References metadata) |}.

Definition bduRecord (bdu : BDU) : VendorCVE :=
  {| VCVE_CVE := bduEntryOf bdu; VCVE_Title := ""; VCVE_Description := "";
     VCVE_References := [BDU_Href bdu] |}.

Definition defRecords (metadata : Metadata) : list VendorCVE :=
  ownRecord metadata :: map bduRecord (BDUs (Meta_Advisory metadata)).

(** The catalog records one file adds: those of each processed
    definition, once per affected-package fact of its criteria tree. *)
Definition fileRecords (tests : gmap string resolvedTest)
    (definitions : list Definition_) : list VendorCVE :=
  flat_map
    (fun advisory =>
       if Contains (Def_ID advisory) "unaffected" then []
       else flat_map (fun _ : pkg => defRecords (Def_Metadata advisory))
                     (walkCriterion (Def_Criteria advisory) tests))
    definitions.

Definition dirRecords (dir : OVALDir) : list VendorCVE :=
  match resolveTests dir, parseDefinitions dir with
  | Ok tests, Ok definitions => fileRecords tests definitions
  | _, _ => []
  end.

(** The catalog records derived from the input files of one run. *)
Definition runRecords (root : Tree) : list VendorCVE :=
  match root with
  | Err _ => []
  | Ok branches =>
      flat_map (fun branch : result (list OVALDir) =>
                  match branch with
                  | Err _ => []
                  | Ok products => flat_map dirRecords products
                  end) branches
  end.

(** The entry a fact emits for one record when the definition has no
    canonical vendor identifier: the bucket is named by the record, the
    entry carries the record alone, its identifier cleared. *)
Definition singleEmission (metadata : Metadata) (affectedPkg : pkg)
    (cve : CVEEntry) : bucket * DefinitionSpecial :=
  ({| packageName := pkg_Name affectedPkg; vulnerabilityID := Entry_ID cve |},
   {| Def_Entry :=
        {| Entry_CVEs := [{| Entry_ID := ""; Entry_Severity := Entry_Severity cve |}];
           Entry_FixedVersion := pkg_FixedVersion affectedPkg;
           AffectedCPEList := AffectedCPEs (Meta_Advisory metadata);
           Entry_Arches := pkg_Arches affectedPkg |} |}).

(** The entry a fact emits when the definition has a canonical vendor
    identifier: one entry with the full record list. *)
Definition vendorEmission (metadata : Metadata) (affectedPkg : pkg)
    : bucket * DefinitionSpecial :=
  ({| packageName := pkg_Name affectedPkg;
      vulnerabilityID := vendorID (References metadata) |},
   {| Def_Entry :=
        {| Entry_CVEs := recordsOf metadata;
           Entry_FixedVersion := pkg_FixedVersion affectedPkg;
           AffectedCPEList := AffectedCPEs (Meta_Advisory metadata);
           Entry_Arches := pkg_Arches affectedPkg |} |}).

(** The entries one fact of a definition emits, with their buckets. *)
Definition factEmissions (metadata : Metadata) (affectedPkg : pkg)
    : list (bucket * DefinitionSpecial) :=
  if decide (vendorID (References metadata) ≠ "")
  then [vendorEmission metadata affectedPkg]
  else map (singleEmission metadata affectedPkg) (recordsOf metadata).

(** The entries one file emits, in the order the builder emits them. *)
Definition emissions (tests : gmap string resolvedTest)
    (definitions : list Definition_) : list (bucket * DefinitionSpecial) :=
  flat_map
    (fun advisory =>
       if Contains (Def_ID advisory) "unaffected" then []
       else flat_map (factEmissions (Def_Metadata advisory))
                     (walkCriterion (Def_Criteria advisory) tests))
    definitions.

End BuilderDoc.

(** The last entry emitted under a bucket. *)
Definition lastEmitted (k : bucket) (l : list (bucket * DefinitionSpecial))
    : option DefinitionSpecial :=
  snd <$> last (filter (fun p => p.1 = k) l).

(** The catalog records among the writes of a run, in order. *)
Definition catalogWrites (calls : list DBCall) : list (string * VulnerabilityDetail) :=
  omap (fun c => match c with
                 | PutVulnerabilityDetail id vuln => Some (id, vuln)
                 | _ => None
                 end) calls.

(** The catalog write [putVendorVulnerabilityDetail] makes for a record. *)
Definition detailOf (cve : VendorCVE) : string * VulnerabilityDetail :=
  (Entry_ID (VCVE_CVE cve),
   {| VD_Severity := Entry_Severity (VCVE_CVE cve);
      VD_References := VCVE_References cve;
      VD_Title := VCVE_Title cve;
      VD_Description := VCVE_Description cve |}).

(** The union step on one stored entry. *)
Definition unionCPEs (e d : Entry) : Entry :=
  {| Entry_CVEs := Entry_CVEs e;
     Entry_FixedVersion := Entry_FixedVersion e;
     AffectedCPEList := Merge (AffectedCPEList e) (AffectedCPEList d);
     Entry_Arches := Entry_Arches e |}.

(** The bucket after an entry is folded into it. *)
Definition foldedBucket (old : AdvisorySpecial) (d : Entry) : AdvisorySpecial :=
  {| Entries :=
       if existsb (fun e => sameVariant e d) (Entries old)
       then map (fun e => if sameVariant e d then unionCPEs e d else e) (Entries old)
       else Entries old ++ [d] |}.

(** No two entries of a bucket agree on the fixed version and on the
    architecture list, the lists compared in order. *)
Definition distinctVariants (entries : list Entry) : Prop :=
  ∀ i j e1 e2, i ≠ j → entries !! i = Some e1 → entries !! j = Some e2 →
    ¬ (Entry_FixedVersion e1 = Entry_FixedVersion e2
       ∧ Entry_Arches e1 = Entry_Arches e2).

(** The same with the architecture lists compared up to order, as the
    design document states the invariant. *)
Definition distinctVariants_doc (entries : list Entry) : Prop :=
  ∀ i j e1 e2, i ≠ j → entries !! i = Some e1 → entries !! j = Some e2 →
    ¬ (Entry_FixedVersion e1 = Entry_FixedVersion e2
       ∧ Entry_Arches e1 ≡ₚ Entry_Arches e2).

(** The result of a query for one record of one stored entry. *)
Definition resultOf (vulnID : string) (entry : Entry) (cve : CVEEntry) : TAdvisory :=
  {| VulnerabilityID := if HasPrefix vulnID "CVE-" then vulnID else Entry_ID cve;
     VendorIDs := if HasPrefix vulnID "CVE-" then [] else [vulnID];
     TSeverity := Entry_Severity cve;
     TFixedVersion := Entry_FixedVersion entry;
     TArches := Entry_Arches entry |}.

(** The results of a query over the stored values: for each decoded value,
    each entry listing the platform, each record of the entry. *)
Definition queryResults (unmarshal : string → option AdvisorySpecial)
    (rawAdvisories : list (string * string)) (cpe : string) : list TAdvisory :=
  flat_map
    (fun raw : string * string =>
       if decide (String.length raw.2 = 0) then []
       else match unmarshal raw.2 with
            | None => []
            | Some adv =>
                flat_map (fun entry =>
                            if contains (AffectedCPEList entry) cpe
                            then map (resultOf raw.1 entry) (Entry_CVEs entry)
                            else [])
                         (Entries adv)
            end)
    rawAdvisories.

(** The map after a list of entries is stored in it, each under its
    bucket, in order. *)
Definition insertAll (m : gmap bucket DefinitionSpecial)
    (l : list (bucket * DefinitionSpecial)) : gmap bucket DefinitionSpecial :=
  foldl (fun m p => <[p.1 := p.2]> m) m l.

(** Every stored value that is not empty decodes. *)
Definition decodable (unmarshal : string → option AdvisorySpecial)
    (rawAdvisories : list (string * string)) : Prop :=
  ∀ vulnID content, (vulnID, content) ∈ rawAdvisories →
    String.length content ≠ 0 → is_Some (unmarshal content).

(** ** Sample feeds *)

Definition ex_refsTwoALTPU : list Reference :=
  [ {| RefID := "ALT-PU-2024-1001";
       RefURL := "https://errata.altlinux.org/ALT-PU-2024-1001";
       Source := "ALTPU" |};
    {| RefID := "ALT-PU-2024-1002";
       RefURL := "https://errata.altlinux.org/ALT-PU-2024-1002";
       Source := "ALTPU" |} ].

Definition ex_refsVendorThenTask : list Reference :=
  [ {| RefID := "ALT-PU-2024-1001";
       RefURL := "https://errata.altlinux.org/ALT-PU-2024-1001";
       Source := "ALTPU" |};
    {| RefID := "ALT-TASK-350000";
       RefURL := "https://packages.altlinux.org/tasks/350000";
       Source := "ALTTASK" |} ].

Definition ex_refsTwoBranded : list Reference :=
  [ {| RefID := "ALT-TASK-350000";
       RefURL := "https://packages.altlinux.org/tasks/350000";
       Source := "ALTTASK" |};
    {| RefID := "ALT-TASK-350001";
       RefURL := "https://packages.altlinux.org/tasks/350001";
       Source := "ALTTASK" |} ].

Definition ex_metadataOf (refs : list Reference) : Metadata :=
  {| Title := "libfoo update"; Description := "Fixes for libfoo";
     References := refs;
     Meta_Advisory := {| Adv_Severity := "High"; BDUs := []; CVEs := [];
                         AffectedCPEs := ["cpe:/o:alt:workstation:10"] |} |}.

Definition ex_objects : list RPMInfoObject :=
  [ {| Object_ID := "oval:org.altlinux.errata:obj:1"; Object_Name := "libfoo" |} ].

Definition ex_states : list RPMInfoState :=
  [ {| State_ID := "oval:org.altlinux.errata:ste:1";
       State_Arch := {| Datatype := "string"; Operation := "pattern match";
                        Text := "x86_64|i586" |};
       State_EVR := {| Datatype := "evr_string"; Operation := "less than";
                       Text := "1.2-4" |} |};
    {| State_ID := "oval:org.altlinux.errata:ste:2";
       State_Arch := {| Datatype := "string"; Operation := "equals";
                        Text := "aarch64" |};
       State_EVR := {| Datatype := "evr_string"; Operation := "less than";
                       Text := "1.2-5" |} |} ].

Definition ex_tests : list RPMInfoTest :=
  [ {| Test_ID := "oval:org.altlinux.errata:tst:1";
       ObjectRef := "oval:org.altlinux.errata:obj:1";
       StateRef := "oval:org.altlinux.errata:ste:1" |};
    {| Test_ID := "oval:org.altlinux.errata:tst:2";
       ObjectRef := "oval:org.altlinux.errata:obj:1";
       StateRef := "oval:org.altlinux.errata:ste:2" |} ].

(** One definition with a vendor reference whose criteria tree reaches two
    tests on the same package. *)
Definition ex_defTwoFacts : Definition_ :=
  {| Def_ID := "oval:org.altlinux.errata:def:20241001";
     Def_Metadata :=
       {| Title := "ALT-PU-2024-1001: package libfoo update";
          Description := "This update upgrades libfoo";
          References :=
            [ {| RefID := "ALT-PU-2024-1001";
                 RefURL := "https://errata.altlinux.org/ALT-PU-2024-1001";
                 Source := "ALTPU" |};
              {| RefID := "CVE-2024-9999";
                 RefURL := "https://nvd.nist.gov/vuln/detail/CVE-2024-9999";
                 Source := "CVE" |} ];
          Meta_Advisory :=
            {| Adv_Severity := "High"; BDUs := [];
               CVEs := [ {| CVE_ID := "CVE-2024-9999"; CVE_Impact := "HIGH" |} ];
               AffectedCPEs := ["cpe:/o:alt:workstation:10"] |} |};
     Def_Criteria :=
       mkCriteria []
         [ mkCriteria [ {| TestRef := "oval:org.altlinux.errata:tst:1" |};
                        {| TestRef := "oval:org.altlinux.errata:tst:2" |} ] [] ] |}.

(** One definition without a vendor reference, with one bulletin. *)
Definition ex_defBulletin : Definition_ :=
  {| Def_ID := "oval:org.altlinux.errata:def:20241002";
     Def_Metadata :=
       {| Title := "libfoo bulletin";
          Description := "Bulletin for libfoo";
          References :=
            [ {| RefID := "BDU:2024-00001";
                 RefURL := "https://bdu.fstec.ru/vul/2024-00001";
                 Source := "BDU" |} ];
          Meta_Advisory :=
            {| Adv_Severity := "Low";
               BDUs := [ {| BDU_ID := "BDU:2024-00001"; BDU_Impact := "High";
                            BDU_Href := "https://bdu.fstec.ru/vul/2024-00001" |} ];
               CVEs := [];
               AffectedCPEs := ["cpe:/o:alt:workstation:10"] |} |};
     Def_Criteria :=
       mkCriteria [ {| TestRef := "oval:org.altlinux.errata:tst:1" |} ] [] |}.

Definition ex_dirOf (definitions : list Definition_) : OVALDir :=
  {| objects_json := Ok ex_objects;
     states_json := Ok ex_states;
     tests_json := Ok ex_tests;
     definitions_json := Ok definitions |}.

Definition ex_dirTwoFacts : OVALDir := ex_dirOf [ex_defTwoFacts].
Definition ex_dirBulletin : OVALDir := ex_dirOf [ex_defBulletin].

(** A test without an object reference whose state reference is not in the
    state table. *)
Definition ex_testStateOnly : RPMInfoTest :=
  {| Test_ID := "oval:org.altlinux.errata:tst:9";
     ObjectRef := "";
     StateRef := "oval:org.altlinux.errata:ste:404" |}.

Definition ex_testNoObject : RPMInfoTest :=
  {| Test_ID := "oval:org.altlinux.errata:tst:7";
     ObjectRef := "oval:org.altlinux.errata:obj:404";
     StateRef := "" |}.

(** One definition with a vendor reference whose criteria tree reaches one
    test. *)
Definition ex_defOneFact : Definition_ :=
  {| Def_ID := Def_ID ex_defTwoFacts;
     Def_Metadata := Def_Metadata ex_defTwoFacts;
     Def_Criteria :=
       mkCriteria [] [ mkCriteria [ {| TestRef := "oval:org.altlinux.errata:tst:1" |} ] [] ] |}.

(** The same state table with the architectures of the first state written
    in the other order. *)
Definition ex_statesSwapped : list RPMInfoState :=
  [ {| State_ID := "oval:org.altlinux.errata:ste:1";
       State_Arch := {| Datatype := "string"; Operation := "pattern match";
                        Text := "i586|x86_64" |};
       State_EVR := {| Datatype := "evr_string"; Operation := "less than";
                       Text := "1.2-4" |} |};
    {| State_ID := "oval:org.altlinux.errata:ste:2";
       State_Arch := {| Datatype := "string"; Operation := "equals";
                        Text := "aarch64" |};
       State_EVR := {| Datatype := "evr_string"; Operation := "less than";
                       Text := "1.2-5" |} |} ].

Definition ex_dirArchA : OVALDir := ex_dirOf [ex_defOneFact].

Definition ex_dirArchB : OVALDir :=
  {| objects_json := Ok ex_objects;
     states_json := Ok ex_statesSwapped;
     tests_json := Ok ex_tests;
     definitions_json := Ok [ex_defOneFact] |}.

(** The per-file result of the builder on a directory. *)
Definition ex_fileOf (dir : OVALDir) : gmap bucket DefinitionSpecial :=
  match (parseOVAL asciiToLower dir []).1 with
  | Ok defs => defs
  | Err _ => ∅
  end.

Definition ex_bucket : bucket :=
  {| packageName := "libfoo"; vulnerabilityID := "ALT-PU-2024-1001" |}.

(** The entry of the merge example of the design document. *)
Definition ex_entry : Entry :=
  {| Entry_CVEs := [ {| Entry_ID := "ALT-PU-2024-1001"; Entry_Severity := SeverityHigh |} ];
     Entry_FixedVersion := "1.2-3";
     AffectedCPEList := ["cpe:/o:example:1"];
     Entry_Arches := ["x86_64"] |}.

(** The entry the builder emits for a fact of [ex_defTwoFacts], by fixed
    version and architecture list. *)
Definition ex_variant (fixedVersion : string) (arches : list string) : Entry :=
  {| Entry_CVEs := [ {| Entry_ID := "ALT-PU-2024-1001"; Entry_Severity := SeverityHigh |};
                     {| Entry_ID := "CVE-2024-9999"; Entry_Severity := SeverityHigh |} ];
     Entry_FixedVersion := fixedVersion;
     AffectedCPEList := ["cpe:/o:alt:workstation:10"];
     Entry_Arches := arches |}.

(** The resolved facts of the sample tests. *)
Definition ex_resolved : gmap string resolvedTest :=
  match resolveTests ex_dirTwoFacts with
  | Ok tests => tests
  | Err _ => ∅
  end.

(** Two runs in one process: a first run over one product directory, then
    a run over a root without branches. *)
Definition ex_root : Tree := Ok [Ok [ex_dirArchA]].
Definition ex_emptyRoot : Tree := Ok [].
Definition ex_fresh : Process := {| proc_vendorCVEs := []; proc_db := [] |}.
Definition ex_noFailure : DBCall → bool := fun _ => false.
Definition ex_afterFirstRun : Process :=
  (Update asciiToLower ex_noFailure ex_root ex_fresh).2.
Definition ex_afterSecondRun : Process :=
  (Update asciiToLower ex_noFailure ex_emptyRoot ex_afterFirstRun).2.

(** A store holding, for the package, the advisory the merger builds from
    [ex_dirBulletin] under the bulletin's identifier. *)
Definition ex_bulletinBucket : bucket :=
  {| packageName := "libfoo"; vulnerabilityID := "BDU:2024-00001" |}.

Definition ex_bulletinAdvisory : AdvisorySpecial :=
  default {| Entries := [] |}
    (mergeAdvisories ∅ (ex_fileOf ex_dirBulletin) !! ex_bulletinBucket).

Definition ex_unmarshal (content : string) : option AdvisorySpecial :=
  if decide (content = "bulletin-advisory") then Some ex_bulletinAdvisory else None.

Definition ex_store (pkgName : string) : result (list (string * string)) :=
  if decide (pkgName = "libfoo")
  then Ok [("BDU:2024-00001", "bulletin-advisory")]
  else Ok [].

(** ** Further descriptions used by the properties of the whole code *)

(** The matcher shapes [followTestRefs] takes a value from. *)
Definition archShape (m : Matcher) : Prop :=
  Datatype m = "string"
  ∧ (Operation m = "pattern match" ∨ Operation m = "equals").

Definition evrShape (m : Matcher) : Prop :=
  Datatype m = "evr_string" ∧ Operation m = "less than".

Global Instance archShape_dec (m : Matcher) : Decision (archShape m).
Proof. unfold archShape. apply _. Defined.
Global Instance evrShape_dec (m : Matcher) : Decision (evrShape m).
Proof. unfold evrShape. apply _. Defined.

(** The last element of a list with a given key. *)
Definition lastWith {A} (key : A → string) (k : string) (l : list A) : option A :=
  last (filter (fun x => key x = k) l).

(** The node that lists the given test refs and has no child. *)
Definition flatCriteria (refs : list string) : Criteria :=
  mkCriteria (map (fun ref => {| TestRef := ref |}) refs) [].

(** A definition the builder does not skip. *)
Definition processed (advisory : Definition_) : Prop :=
  Contains (Def_ID advisory) "unaffected" = false.






(** A product directory the builder does not fail on. *)
Definition parses (dir : OVALDir) : Prop :=
  ¬ is_Err (resolveTests dir) ∧ ¬ is_Err (parseDefinitions dir).

(** Every directory of the tree can be listed and every product directory
    parses. *)
Definition readable (root : Tree) : Prop :=
  match root with
  | Err _ => False
  | Ok branches =>
      Forall (fun branch : result (list OVALDir) =>
                match branch with
                | Err _ => False
                | Ok products => Forall parses products
                end) branches
  end.


(** * Properties *)

(** ** Go's [strings.Split] *)

Lemma Split_nonempty s sep : Split s sep ≠ [].
Proof.
  destruct s as [|c s]; simpl; [done|].
  destruct (decide (c = sep)); [done|]. by destruct (Split s sep).
Qed.

Lemma Join_cons p ps sep :
  ps ≠ [] → Join (p :: ps) sep = p +:+ String sep (Join ps sep).
Proof. by destruct ps. Qed.

Lemma Join_Split s sep : Join (Split s sep) sep = s.
Proof.
  induction s as [|c s IH]; simpl; [done|].
  destruct (decide (c = sep)) as [->|Hne].
  - rewrite Join_cons by apply Split_nonempty. simpl. by rewrite IH.
  - pose proof (Split_nonempty s sep) as Hs.
    destruct (Split s sep) as [|p ps]; [done|].
    destruct ps as [|q ps]; simpl in *; by rewrite <- IH.
Qed.

Lemma Split_no_sep s sep : Forall (fun p => ¬ occurs sep p) (Split s sep).
Proof.
  induction s as [|c s IH]; simpl.
  - constructor; [tauto | constructor].
  - destruct (decide (c = sep)) as [->|Hne].
    + constructor; [simpl; tauto | done].
    + pose proof (Split_nonempty s sep) as Hs.
      destruct (Split s sep) as [|p ps]; [done|].
      inversion IH; subst. constructor; [|done].
      simpl. intros [?|?]; tauto.
Qed.

(** ** C1: the canonical vendor identifier *)

(** C1 (as the code has it): [vendorID] is the RefID of the FIRST reference
    whose source tag is ["ALTPU"], in list order, and the empty string when
    no reference has that tag. *)
Theorem vendorID_first_ALTPU (refs : list Reference) :
  vendorID refs = default "" (RefID <$> head (altpuRefs refs)).
Proof.
  unfold altpuRefs. induction refs as [|r refs IH]; [done|].
  simpl. rewrite filter_cons.
  destruct (decide (Source r = "ALTPU")); simpl; done.
Qed.

(** C1 (as stated) fails: with two ["ALTPU"] references the identifier is
    not the RefID of the last one. *)
Lemma vendorID_not_last_ALTPU :
  1 < length (altpuRefs ex_refsTwoALTPU)
  ∧ vendorID ex_refsTwoALTPU
    ≠ default "" (RefID <$> last (altpuRefs ex_refsTwoALTPU)).
Proof. split; [vm_compute; lia | vm_compute; discriminate]. Qed.

(** ** C2: the identifier of the vendor's own record *)

Lemma vendorCVE_id_foldl (refs : list Reference) (id : string) :
  foldl (fun id r => if Contains (RefID r) "ALT" then RefID r else id) id refs
  = default id (RefID <$> last (altBrandedRefs refs)).
Proof.
  unfold altBrandedRefs. revert id.
  induction refs as [|r refs IH]; intros id; [done|].
  simpl. rewrite IH, filter_cons.
  destruct (decide (Contains (RefID r) "ALT" = true)) as [Hc|Hc].
  - rewrite Hc.
    generalize (filter (fun r0 : Reference => Contains (RefID r0) "ALT" = true) refs).
    intros [|r' l]; [reflexivity|].
    rewrite (last_cons r). by destruct (last (r' :: l)).
  - apply not_true_is_false in Hc. by rewrite Hc.
Qed.

(** C2 (as the code has it): the identifier of the record [vendorCVE]
    builds is the RefID of the LAST reference whose RefID contains ["ALT"],
    and the empty string when there is none; the source tags, and so the
    canonical vendor identifier, play no part. *)
Theorem vendorCVE_last_ALT_branded (ToLower : string → string) (metadata : Metadata) :
  Entry_ID (vendorCVE ToLower metadata)
  = default "" (RefID <$> last (altBrandedRefs (References metadata))).
Proof. apply vendorCVE_id_foldl. Qed.

(** C2 (as stated) fails twice: a later ALT-branded reference replaces the
    canonical vendor identifier, and without a canonical identifier the
    last ALT-branded reference is taken, not the first. *)
Lemma vendorCVE_not_canonical_nor_first :
  Entry_ID (vendorCVE asciiToLower (ex_metadataOf ex_refsVendorThenTask))
    ≠ vendorCVE_id_doc ex_refsVendorThenTask
  ∧ Entry_ID (vendorCVE asciiToLower (ex_metadataOf ex_refsTwoBranded))
    ≠ vendorCVE_id_doc ex_refsTwoBranded.
Proof. split; vm_compute; discriminate. Qed.

(** ** C8: reference resolution *)

Lemma followTestRefs_error (test : RPMInfoTest)
    (objects : gmap string RPMInfoObject) (states : gmap string RPMInfoState) :
  is_Some (followTestRefs test objects states).2 ↔ dangling test objects states.
Proof.
  unfold followTestRefs, dangling.
  destruct (decide (ObjectRef test = "")) as [Ho|Ho]; simpl.
  { split; [intros [? [=]] | intros [? _]; done]. }
  destruct (objects !! ObjectRef test) as [obj|] eqn:Hobj; simpl.
  2: { split; [auto | by eexists]. }
  destruct (decide (StateRef test = "")) as [Hs|Hs]; simpl.
  { split; [intros [? [=]] | intros [_ [[=]|[? _]]]; done]. }
  destruct (states !! StateRef test) as [state|] eqn:Hst; simpl.
  - split; [intros [? [=]] | intros [_ [[=]|[_ [=]]]]].
  - split; [auto | by eexists].
Qed.

Lemma resolveLoop_error (tests : list RPMInfoTest)
    (objects : gmap string RPMInfoObject) (states : gmap string RPMInfoState)
    (rpmTests : gmap string resolvedTest) :
  is_Err (resolveLoop tests objects states rpmTests)
  ↔ ∃ test, test ∈ tests ∧ dangling test objects states.
Proof.
  revert rpmTests. induction tests as [|test tests IH]; intros rpmTests; simpl.
  { split; [done | intros (? & []%elem_of_nil & _)]. }
  pose proof (followTestRefs_error test objects states) as Hf.
  destruct (followTestRefs test objects states) as [t [err|]]; simpl in *.
  - split; [intros _ | done]. exists test. split; [left | apply Hf; by eexists].
  - rewrite IH. split.
    + intros (t' & Hin & Hd). exists t'. split; [by right | done].
    + intros (t' & Hin & Hd). apply elem_of_cons in Hin as [->|Hin].
      * apply Hf in Hd as [? [=]].
      * by exists t'.
Qed.

(** C8 (as the code has it): [followTestRefs] fails exactly when the object
    reference is non-empty and either it is absent from the object table or
    the state reference is non-empty and absent from the state table; the
    error names the missing reference and the owning test; one failing test
    makes [resolveTests] return the error and no fact map; a test with an
    empty object reference yields the all-empty fact and no error, whatever
    its state reference. *)
Theorem followTestRefs_fails_iff_dangling (test : RPMInfoTest)
    (objects : gmap string RPMInfoObject) (states : gmap string RPMInfoState) :
  (is_Some (followTestRefs test objects states).2 ↔ dangling test objects states)
  ∧ (ObjectRef test ≠ "" → objects !! ObjectRef test = None →
     (followTestRefs test objects states).2
     = Some (ErrObjectRef (ObjectRef test) (Test_ID test)))
  ∧ (ObjectRef test ≠ "" → is_Some (objects !! ObjectRef test) →
     StateRef test ≠ "" → states !! StateRef test = None →
     (followTestRefs test objects states).2
     = Some (ErrStateRef (StateRef test) (Test_ID test)))
  ∧ (ObjectRef test = "" →
     followTestRefs test objects states
     = ({| Name := ""; FixedVersion := ""; Arch := "" |}, None))
  ∧ (∀ dir tests, parseObjects dir = Ok objects → parseStates dir = Ok states →
     parseTests dir = Ok tests →
     (is_Err (resolveTests dir)
      ↔ ∃ test', test' ∈ tests ∧ dangling test' objects states)).
Proof.
  split; [apply followTestRefs_error|].
  split.
  { intros Ho Hobj. unfold followTestRefs.
    destruct (decide _); [done|]. by rewrite Hobj. }
  split.
  { intros Ho [obj Hobj] Hs Hst. unfold followTestRefs.
    destruct (decide _); [done|]. rewrite Hobj.
    destruct (decide _); [done|]. by rewrite Hst. }
  split.
  { intros Ho. unfold followTestRefs. by destruct (decide _). }
  intros dir tests Hobjects Hstates Htests.
  unfold resolveTests. rewrite Hobjects, Hstates, Htests.
  apply resolveLoop_error.
Qed.

Lemma followTestRefs_fails_iff_dangling_witness :
  (followTestRefs ex_testNoObject ∅ ∅).2
  = Some (ErrObjectRef "oval:org.altlinux.errata:obj:404"
                       "oval:org.altlinux.errata:tst:7").
Proof.
  apply (followTestRefs_fails_iff_dangling ex_testNoObject ∅ ∅);
    [vm_compute; discriminate | reflexivity].
Defined.

(** C8 (as stated) fails: a test with an empty object reference and a
    non-empty state reference absent from the state table resolves without
    error. *)
Lemma followTestRefs_state_only_no_error :
  dangling_doc ex_testStateOnly ∅ ∅
  ∧ (followTestRefs ex_testStateOnly ∅ ∅).2 = None.
Proof.
  split; [right; split; [vm_compute; discriminate | reflexivity] | reflexivity].
Qed.

(** ** C9: the criteria walk *)

(** Induction on a criteria tree, with the hypothesis on every child. *)
Lemma Criteria_tree_ind (P : Criteria → Prop) :
  (∀ criterions criterias, Forall P criterias → P (mkCriteria criterions criterias)) →
  ∀ cri, P cri.
Proof.
  intros Hnode. fix IH 1. intros [criterions criterias].
  apply Hnode. induction criterias as [|c cs IHcs]; constructor; [apply IH | apply IHcs].
Qed.

Lemma walkOwn_foldl (tests : gmap string resolvedTest)
    (criterions : list Criterion) (packages : list pkg) :
  foldl (walkOwn tests) packages criterions
  = packages ++ omap (fun ref => factOf <$> tests !! ref) (map TestRef criterions).
Proof.
  revert packages. induction criterions as [|c cs IH]; intros packages; simpl.
  { by rewrite app_nil_r. }
  rewrite IH. unfold walkOwn.
  destruct (tests !! TestRef c) as [t|]; simpl; [|done].
  by rewrite <- app_assoc.
Qed.

(** The loop over the children appends every child's result; the test on
    the length only leaves out the empty ones. *)
Lemma walkChildren_concat (tests : gmap string resolvedTest)
    (criterias : list Criteria) (packages : list pkg) :
  (fix children (cs : list Criteria) (packages : list pkg) : list pkg :=
     match cs with
     | [] => packages
     | c :: cs' =>
         let pkgs := walkCriterion c tests in
         children cs'
           (if decide (length pkgs ≠ 0) then packages ++ pkgs else packages)
     end) criterias packages
  = packages ++ concat (map (fun c => walkCriterion c tests) criterias).
Proof.
  revert packages. induction criterias as [|c cs IH]; intros packages; simpl.
  { by rewrite app_nil_r. }
  rewrite IH. destruct (decide (length (walkCriterion c tests) ≠ 0)) as [Hn|Hn].
  - by rewrite <- app_assoc.
  - destruct (walkCriterion c tests); [done | simpl in Hn; lia].
Qed.

Lemma walkCriterion_node (tests : gmap string resolvedTest)
    (criterions : list Criterion) (criterias : list Criteria) :
  walkCriterion (mkCriteria criterions criterias) tests
  = omap (fun ref => factOf <$> tests !! ref) (map TestRef criterions)
    ++ concat (map (fun c => walkCriterion c tests) criterias).
Proof.
  cbn [walkCriterion]. rewrite walkOwn_foldl. simpl.
  destruct (decide (length criterias = 0)) as [Hl|Hl].
  - destruct criterias; [simpl; by rewrite app_nil_r | done].
  - apply walkChildren_concat.
Qed.

Lemma walkCriterion_reachable (tests : gmap string resolvedTest) (cri : Criteria) :
  walkCriterion cri tests
  = omap (fun ref => factOf <$> tests !! ref) (reachableRefs cri).
Proof.
  induction cri as [criterions criterias IH] using Criteria_tree_ind.
  rewrite walkCriterion_node. cbn [reachableRefs]. rewrite omap_app. f_equal.
  induction IH as [|c cs Hc _ IHcs]; [done|].
  simpl. by rewrite omap_app, Hc, IHcs.
Qed.

(** C9: [walkCriterion] returns the facts of the test refs reachable from
    the node, in order (the node's own refs first, then each child's
    results in child order, recursively), leaving out the refs absent from
    the resolved-fact map; the architecture list of a fact is the pattern
    split at every ['|'] when the pattern is not empty, and empty
    otherwise. *)
Theorem walkCriterion_union_of_leaves (tests : gmap string resolvedTest)
    (cri : Criteria) :
  walkCriterion cri tests
    = omap (fun ref => factOf <$> tests !! ref) (reachableRefs cri)
  ∧ walkCriterion cri tests
    = walkCriterion (mkCriteria (Criterions cri) []) tests
      ++ concat (map (fun c => walkCriterion c tests) (Criterias cri))
  ∧ (∀ t, pkg_Arches (factOf t)
          = if decide (Arch t = "") then [] else Split (Arch t) "|")
  ∧ (∀ s, Join (Split s "|") "|" = s
          ∧ Forall (fun p => ¬ occurs "|" p) (Split s "|")).
Proof.
  split; [apply walkCriterion_reachable|].
  split.
  { destruct cri as [criterions criterias].
    rewrite !walkCriterion_node. simpl. by rewrite app_nil_r. }
  split; [done|].
  intros s. split; [apply Join_Split | apply Split_no_sep].
Qed.

(** ** C6 and C7: the advisory merger *)

(** *** The union of two platform lists *)

Lemma Unique_elem_of (l : list string) (x : string) : x ∈ Unique l ↔ x ∈ l.
Proof.
  induction l as [|y l IH]; simpl; [done|].
  rewrite !elem_of_cons, list_elem_of_filter, IH.
  destruct (decide (x = y)); tauto.
Qed.

Lemma Unique_NoDup (l : list string) : NoDup (Unique l).
Proof.
  induction l as [|y l IH]; simpl; constructor.
  - rewrite list_elem_of_filter. tauto.
  - by apply NoDup_filter.
Qed.

Lemma Unique_sublist (l : list string) : Unique l `sublist_of` l.
Proof.
  induction l as [|y l IH]; simpl; [done|].
  apply sublist_skip. etrans; [apply sublist_filter | done].
Qed.

Lemma filter_all (P : string → Prop) `{!∀ x, Decision (P x)} (l : list string) :
  (∀ x, x ∈ l → P x) → filter P l = l.
Proof.
  induction l as [|y l IH]; intros HP; [done|].
  rewrite filter_cons_True by (apply HP; left).
  f_equal. apply IH. intros x Hx. apply HP. by right.
Qed.

Lemma filter_none (P : string → Prop) `{!∀ x, Decision (P x)} (l : list string) :
  (∀ x, x ∈ l → ¬ P x) → filter P l = [].
Proof.
  induction l as [|y l IH]; intros HP; [done|].
  rewrite filter_cons_False by (apply HP; left).
  apply IH. intros x Hx. apply HP. by right.
Qed.

Lemma Unique_of_NoDup (l : list string) : NoDup l → Unique l = l.
Proof.
  induction 1 as [|y l Hy Hl IH]; simpl; [done|].
  rewrite IH. f_equal. apply filter_all. intros x Hx ->. done.
Qed.

Lemma Unique_app (l1 l2 : list string) :
  Unique (l1 ++ l2) = Unique l1 ++ filter (fun y => y ∉ l1) (Unique l2).
Proof.
  induction l1 as [|x l1 IH]; simpl.
  - symmetry. apply filter_all. intros y _. apply not_elem_of_nil.
  - rewrite IH, filter_app, list_filter_filter. do 2 f_equal.
    apply list_filter_iff. intros y. rewrite not_elem_of_cons. tauto.
Qed.

Lemma Merge_NoDup (a b : list string) : NoDup (Merge a b).
Proof. apply Unique_NoDup. Qed.

Lemma Merge_elem_of (a b : list string) (x : string) :
  x ∈ Merge a b ↔ x ∈ a ∨ x ∈ b.
Proof. unfold Merge. by rewrite Unique_elem_of, elem_of_app. Qed.

Lemma Merge_sublist (a b : list string) : Merge a b `sublist_of` a ++ b.
Proof. apply Unique_sublist. Qed.

Lemma Merge_again (a b : list string) : Merge (Merge a b) b = Merge a b.
Proof.
  unfold Merge at 1. rewrite Unique_app.
  rewrite (Unique_of_NoDup (Merge a b)) by apply Merge_NoDup.
  rewrite filter_none; [by rewrite app_nil_r|].
  intros x Hx Hn. apply Hn, Merge_elem_of. right. by apply Unique_elem_of.
Qed.

(** *** One bucket *)

Lemma sameVariant_spec (e d : Entry) :
  sameVariant e d = true
  ↔ Entry_FixedVersion e = Entry_FixedVersion d ∧ Entry_Arches e = Entry_Arches d.
Proof.
  unfold sameVariant. rewrite andb_true_iff, !bool_decide_eq_true. done.
Qed.

Lemma sameVariant_unionCPEs (e d d' : Entry) :
  sameVariant (unionCPEs e d') d = sameVariant e d.
Proof. done. Qed.

Lemma insert_at_length (pre suf : list Entry) (e e' : Entry) :
  <[length pre := e']> (pre ++ e :: suf) = pre ++ e' :: suf.
Proof. induction pre as [|x pre IH]; simpl; [done | by rewrite IH]. Qed.

(** The loop over the indices, started at any position: the entries before
    the position are left, those after it are updated where they match. *)
Lemma mergeStep_loop (def : DefinitionSpecial) (pre suf : list Entry) (found : bool) :
  foldl (mergeStep def) (pre ++ suf, found) (seq (length pre) (length suf))
  = (pre ++ map (fun e => if sameVariant e (Def_Entry def)
                          then unionCPEs e (Def_Entry def) else e) suf,
     found || existsb (fun e => sameVariant e (Def_Entry def)) suf).
Proof.
  revert pre found. induction suf as [|e suf IH]; intros pre found; simpl.
  { by rewrite orb_false_r. }
  unfold mergeStep at 2. simpl.
  rewrite list_lookup_middle by done.
  destruct (sameVariant e (Def_Entry def)) eqn:Hm.
  - rewrite insert_at_length.
    replace (S (length pre)) with (length (pre ++ [unionCPEs e (Def_Entry def)]))
      by (rewrite length_app; simpl; lia).
    rewrite (cons_middle _ pre suf), app_assoc, IH, <- app_assoc.
    by rewrite orb_true_r.
  - replace (S (length pre)) with (length (pre ++ [e]))
      by (rewrite length_app; simpl; lia).
    rewrite (cons_middle e pre suf), app_assoc, IH, <- app_assoc. done.
Qed.

Lemma mergeBucket_folded (old : AdvisorySpecial) (def : DefinitionSpecial) :
  mergeBucket old def = foldedBucket old (Def_Entry def).
Proof.
  unfold mergeBucket, foldedBucket.
  pose proof (mergeStep_loop def [] (Entries old) false) as H.
  simpl in H. rewrite H. simpl. f_equal.
  destruct (existsb _ (Entries old)) eqn:Hfound; [done|].
  f_equal. clear H. induction (Entries old) as [|e l IH]; simpl in *; [done|].
  apply orb_false_iff in Hfound as [Hm Hl]. rewrite Hm. f_equal. by apply IH.
Qed.

Lemma existsb_sameVariant_map (l : list Entry) (d : Entry) :
  existsb (fun e => sameVariant e d)
    (map (fun e => if sameVariant e d then unionCPEs e d else e) l)
  = existsb (fun e => sameVariant e d) l.
Proof.
  induction l as [|e l IH]; simpl; [done|]. rewrite IH. f_equal.
  destruct (sameVariant e d) eqn:Hm; [|done].
  by rewrite sameVariant_unionCPEs.
Qed.

Lemma foldedBucket_again (old : AdvisorySpecial) (d : Entry) :
  existsb (fun e => sameVariant e d) (Entries old) = true →
  foldedBucket (foldedBucket old d) d = foldedBucket old d.
Proof.
  intros Hfound. unfold foldedBucket. rewrite Hfound. simpl.
  rewrite existsb_sameVariant_map, Hfound.
  f_equal. rewrite map_map. apply map_ext. intros e.
  destruct (sameVariant e d) eqn:Hm; [|by rewrite Hm].
  rewrite sameVariant_unionCPEs, Hm. unfold unionCPEs. simpl.
  by rewrite Merge_again.
Qed.

(** *** The map *)

(** What [mergeAdvisories] leaves in every bucket; the order in which the
    [range] visits the keys plays no part in it. *)
Lemma mergeAdvisories_lookup (advisories : gmap bucket AdvisorySpecial)
    (defs : gmap bucket DefinitionSpecial) (k : bucket) :
  mergeAdvisories advisories defs !! k
  = match defs !! k with
    | None => advisories !! k
    | Some def =>
        Some match advisories !! k with
             | Some old => mergeBucket old def
             | None => {| Entries := [Def_Entry def] |}
             end
    end.
Proof.
  unfold mergeAdvisories. revert k.
  apply (map_fold_weak_ind
           (fun r (m : gmap bucket DefinitionSpecial) =>
              ∀ k, r !! k = match m !! k with
                            | None => advisories !! k
                            | Some def =>
                                Some match advisories !! k with
                                     | Some old => mergeBucket old def
                                     | None => {| Entries := [Def_Entry def] |}
                                     end
                            end)).
  - intros k. by rewrite lookup_empty.
  - intros i x m r Hi IH k. unfold mergeOne.
    destruct (decide (i = k)) as [->|Hne].
    + rewrite lookup_insert_eq. specialize (IH k). rewrite Hi in IH.
      rewrite IH. destruct (advisories !! k); by rewrite lookup_insert_eq.
    + rewrite lookup_insert_ne by done. rewrite <- IH.
      destruct (r !! i); by rewrite lookup_insert_ne.
Qed.

Lemma lookup_map_Some {A B} (f : A → B) (l : list A) (i : nat) (x : A) :
  l !! i = Some x → map f l !! i = Some (f x).
Proof.
  revert i. induction l as [|y l IH]; intros [|i]; simpl; try done.
  - by intros [= ->].
  - apply IH.
Qed.

Lemma lookup_map_inv {A B} (f : A → B) (l : list A) (i : nat) (y : B) :
  map f l !! i = Some y → ∃ x, l !! i = Some x ∧ y = f x.
Proof.
  revert i. induction l as [|x l IH]; intros [|i]; simpl; try done.
  - intros [= <-]. eauto.
  - apply IH.
Qed.

Lemma existsb_sameVariant (l : list Entry) (d : Entry) :
  existsb (fun e => sameVariant e d) l = true
  ↔ ∃ e, e ∈ l ∧ Entry_FixedVersion e = Entry_FixedVersion d
         ∧ Entry_Arches e = Entry_Arches d.
Proof.
  rewrite existsb_exists. split.
  - intros (e & Hin & Hm). exists e. split; [by apply list_elem_of_In|].
    by apply sameVariant_spec.
  - intros (e & Hin & Hm). exists e. split; [by apply list_elem_of_In|].
    by apply sameVariant_spec.
Qed.

(** C6: when [mergeAdvisories] folds an entry into a bucket that exists,
    and the bucket holds an entry with the same fixed version and the same
    architecture list (compared in order), the bucket keeps its number of
    entries, every such entry gets as platform list the union of its list
    and the incoming one (order-preserving, without duplicates) and the
    other entries are left as they are; otherwise the incoming entry is
    appended.  Folding the same entry in once more changes nothing. *)
Theorem mergeAdvisories_existing_bucket
    (advisories : gmap bucket AdvisorySpecial)
    (defs : gmap bucket DefinitionSpecial)
    (bkt : bucket) (old : AdvisorySpecial) (def : DefinitionSpecial) :
  advisories !! bkt = Some old →
  defs !! bkt = Some def →
  let d := Def_Entry def in
  let found := existsb (fun e => sameVariant e d) (Entries old) in
  ∃ new,
    mergeAdvisories advisories defs !! bkt = Some new
    ∧ (found = true
       ↔ ∃ e, e ∈ Entries old ∧ Entry_FixedVersion e = Entry_FixedVersion d
              ∧ Entry_Arches e = Entry_Arches d)
    ∧ (found = true →
       length (Entries new) = length (Entries old)
       ∧ (∀ i e, Entries old !! i = Some e →
            Entries new !! i
            = Some (if sameVariant e d
                    then {| Entry_CVEs := Entry_CVEs e;
                            Entry_FixedVersion := Entry_FixedVersion e;
                            AffectedCPEList :=
                              Merge (AffectedCPEList e) (AffectedCPEList d);
                            Entry_Arches := Entry_Arches e |}
                    else e))
       ∧ mergeAdvisories (mergeAdvisories advisories defs) defs !! bkt = Some new)
    ∧ (found = false → Entries new = Entries old ++ [d])
    ∧ (∀ a b : list string,
         NoDup (Merge a b)
         ∧ (∀ x, x ∈ Merge a b ↔ x ∈ a ∨ x ∈ b)
         ∧ Merge a b `sublist_of` a ++ b).
Proof.
  intros Hold Hdef. cbv zeta. exists (foldedBucket old (Def_Entry def)).
  assert (mergeAdvisories advisories defs !! bkt
          = Some (foldedBucket old (Def_Entry def))) as Hnew.
  { by rewrite mergeAdvisories_lookup, Hdef, Hold, mergeBucket_folded. }
  split; [done|]. split; [apply existsb_sameVariant|].
  split; [|split].
  - intros Hfound. split; [|split].
    + unfold foldedBucket. rewrite Hfound. apply length_map.
    + intros i e Hi. unfold foldedBucket. rewrite Hfound. simpl.
      apply (lookup_map_Some
               (fun e => if sameVariant e (Def_Entry def)
                         then unionCPEs e (Def_Entry def) else e) _ _ _ Hi).
    + rewrite mergeAdvisories_lookup, Hdef, Hnew, mergeBucket_folded.
      f_equal. by apply foldedBucket_again.
  - intros Hfound. unfold foldedBucket. by rewrite Hfound.
  - intros a b. split; [apply Merge_NoDup|].
    split; [apply Merge_elem_of | apply Merge_sublist].
Qed.

(** The merge example of the design document: the bucket holds the entry,
    the same entry comes in, and the bucket holds one entry with the
    platform list of the one. *)
Lemma mergeAdvisories_existing_bucket_witness :
  mergeAdvisories {[ ex_bucket := {| Entries := [ex_entry] |} ]}
                  {[ ex_bucket := {| Def_Entry := ex_entry |} ]} !! ex_bucket
  = Some {| Entries := [ex_entry] |}.
Proof.
  assert (({[ ex_bucket := {| Entries := [ex_entry] |} ]}
           : gmap bucket AdvisorySpecial) !! ex_bucket
          = Some {| Entries := [ex_entry] |}) as Hold by (vm_compute; reflexivity).
  assert (({[ ex_bucket := {| Def_Entry := ex_entry |} ]}
           : gmap bucket DefinitionSpecial) !! ex_bucket
          = Some {| Def_Entry := ex_entry |}) as Hdef by (vm_compute; reflexivity).
  pose proof (mergeAdvisories_existing_bucket _ _ _ _ _ Hold Hdef) as H.
  cbv zeta in H. destruct H as (new & Hnew & _ & Hfound & _).
  assert (existsb (fun e => sameVariant e ex_entry) [ex_entry] = true) as Hf
    by (vm_compute; reflexivity).
  destruct (Hfound Hf) as (Hlen & Hentries & _).
  rewrite Hnew. f_equal.
  assert ([ex_entry] !! 0 = Some ex_entry) as H0 by reflexivity.
  apply Hentries in H0. destruct new as [entries].
  cbn [Entries] in *. vm_compute in Hlen, H0.
  destruct entries as [|e [|e' l]]; [discriminate Hlen | | discriminate Hlen].
  injection H0 as ->. reflexivity.
Defined.

(** *** C7: the invariant of a bucket *)

Lemma distinctVariants_folded (old : AdvisorySpecial) (d : Entry) :
  distinctVariants (Entries old) → distinctVariants (Entries (foldedBucket old d)).
Proof.
  intros Hold. unfold foldedBucket. simpl.
  destruct (existsb _ (Entries old)) eqn:Hfound.
  - intros i j e1 e2 Hij H1 H2.
    apply lookup_map_inv in H1 as (x1 & H1 & ->).
    apply lookup_map_inv in H2 as (x2 & H2 & ->).
    specialize (Hold i j x1 x2 Hij H1 H2).
    by destruct (sameVariant x1 d), (sameVariant x2 d).
  - assert (∀ i e, Entries old !! i = Some e →
              ¬ (Entry_FixedVersion e = Entry_FixedVersion d
                 ∧ Entry_Arches e = Entry_Arches d)) as Hnone.
    { intros i e Hi Hm. apply not_true_iff_false in Hfound. apply Hfound.
      apply existsb_sameVariant. exists e.
      split; [by eapply list_elem_of_lookup_2 | done]. }
    intros i j e1 e2 Hij H1 H2.
    apply lookup_app_Some in H1 as [H1|[Hi H1]];
      apply lookup_app_Some in H2 as [H2|[Hj H2]].
    + by apply (Hold i j).
    + apply list_lookup_singleton_Some in H2 as [_ <-]. by apply (Hnone i).
    + apply list_lookup_singleton_Some in H1 as [_ <-].
      intros [Hv Ha]. by apply (Hnone j e2).
    + apply list_lookup_singleton_Some in H1 as [? _].
      apply list_lookup_singleton_Some in H2 as [? _]. lia.
Qed.

Lemma distinctVariants_singleton (d : Entry) : distinctVariants [d].
Proof.
  intros i j e1 e2 Hij H1 H2.
  apply list_lookup_singleton_Some in H1 as [? _].
  apply list_lookup_singleton_Some in H2 as [? _]. lia.
Qed.

Lemma mergeAdvisories_distinctVariants
    (advisories : gmap bucket AdvisorySpecial) (defs : gmap bucket DefinitionSpecial) :
  map_Forall (fun _ adv => distinctVariants (Entries adv)) advisories →
  map_Forall (fun _ adv => distinctVariants (Entries adv))
             (mergeAdvisories advisories defs).
Proof.
  intros Hinv k adv. rewrite mergeAdvisories_lookup.
  destruct (defs !! k) as [def|]; [|apply Hinv].
  intros [= <-]. destruct (advisories !! k) as [old|] eqn:Hold.
  - rewrite mergeBucket_folded. apply distinctVariants_folded. by apply (Hinv k).
  - apply distinctVariants_singleton.
Qed.

(** C7 (as the code has it): in the map [mergeAdvisories] builds from the
    per-file results of a run, starting from the empty map, no bucket holds
    two entries with an equal fixed version and architecture lists that are
    equal as ordered sequences. *)
Theorem mergeAdvisories_keeps_variants_distinct
    (files : list (gmap bucket DefinitionSpecial)) :
  map_Forall (fun _ adv => distinctVariants (Entries adv))
             (foldl mergeAdvisories ∅ files).
Proof.
  induction files as [|f files IH] using rev_ind.
  - apply map_Forall_empty.
  - rewrite foldl_app. simpl. by apply mergeAdvisories_distinctVariants.
Qed.

(** C7 (as stated) fails: two files give the same fixed version for the
    same bucket, with the architectures ["x86_64|i586"] in one and
    ["i586|x86_64"] in the other; the bucket holds both entries. *)
Lemma mergeAdvisories_permuted_arches_coexist :
  ¬ map_Forall (fun _ adv => distinctVariants_doc (Entries adv))
      (foldl mergeAdvisories ∅ [ex_fileOf ex_dirArchA; ex_fileOf ex_dirArchB]).
Proof.
  intros Hinv.
  assert (foldl mergeAdvisories ∅ [ex_fileOf ex_dirArchA; ex_fileOf ex_dirArchB]
            !! ex_bucket
          = Some {| Entries := [ ex_variant "1.2-4" ["x86_64"; "i586"];
                                 ex_variant "1.2-4" ["i586"; "x86_64"] ] |}) as Hadv
    by (vm_compute; reflexivity).
  apply (Hinv _ _ Hadv 0 1 (ex_variant "1.2-4" ["x86_64"; "i586"])
              (ex_variant "1.2-4" ["i586"; "x86_64"])); [lia | done | done |].
  split; [done | apply Permutation_swap].
Qed.

(** ** C3 and C10: the advisory builder *)

Lemma foldl_snoc_map {A B} (f : A → B) (l : list A) (acc : list B) :
  foldl (fun data r => data ++ [f r]) acc l = acc ++ map f l.
Proof.
  revert acc. induction l as [|x l IH]; intros acc; simpl.
  - by rewrite app_nil_r.
  - by rewrite IH, <- app_assoc.
Qed.

Lemma toReferences_map (references : list Reference) :
  toReferences references = map RefURL references.
Proof. unfold toReferences. by rewrite foldl_snoc_map. Qed.

Lemma insertAll_app (m : gmap bucket DefinitionSpecial)
    (l1 l2 : list (bucket * DefinitionSpecial)) :
  insertAll m (l1 ++ l2) = insertAll (insertAll m l1) l2.
Proof. apply foldl_app. Qed.

Lemma insertAll_lookup (m : gmap bucket DefinitionSpecial)
    (l : list (bucket * DefinitionSpecial)) (k : bucket) :
  insertAll m l !! k = match lastEmitted k l with
                       | Some d => Some d
                       | None => m !! k
                       end.
Proof.
  unfold lastEmitted. induction l as [|[k' d] l IH] using rev_ind; [done|].
  rewrite insertAll_app, filter_app. simpl.
  rewrite filter_cons, filter_nil. simpl.
  destruct (decide (k' = k)) as [->|Hne].
  - by rewrite lookup_insert_eq, last_snoc.
  - by rewrite lookup_insert_ne, app_nil_r.
Qed.

Section BuilderFacts.

Variable ToLower : string → string.

Lemma bduStep_foldl (bdus : list BDU) (st : list CVEEntry * list VendorCVE) :
  foldl (bduStep ToLower) st bdus
  = (st.1 ++ map (bduEntryOf ToLower) bdus, st.2 ++ map (bduRecord ToLower) bdus).
Proof.
  revert st. induction bdus as [|bdu bdus IH]; intros [ce vc]; simpl.
  - by rewrite !app_nil_r.
  - rewrite IH. simpl. by rewrite <- !app_assoc.
Qed.

Lemma cveStep_foldl (cves : list CVE) (cveEntries : list CVEEntry) :
  foldl (cveStep ToLower) cveEntries cves
  = cveEntries ++ map (cveEntryOf ToLower) cves.
Proof.
  revert cveEntries. induction cves as [|cve cves IH]; intros ce; simpl.
  - by rewrite app_nil_r.
  - rewrite IH. unfold cveStep. by rewrite <- app_assoc.
Qed.

Lemma foldl_insert_map {A} (g : A → bucket * DefinitionSpecial) (l : list A)
    (m : gmap bucket DefinitionSpecial) :
  foldl (fun m x => <[(g x).1 := (g x).2]> m) m l = insertAll m (map g l).
Proof.
  revert m. induction l as [|x l IH]; intros m; simpl; [done|]. by rewrite IH.
Qed.

(** One affected package: its entries are stored, the catalog records of
    the definition are appended. *)
Lemma pkgStep_eq (advisory : Definition_) (st : BuildState) (affectedPkg : pkg) :
  pkgStep ToLower advisory st affectedPkg
  = {| defs := insertAll (defs st)
                 (factEmissions ToLower (Def_Metadata advisory) affectedPkg);
       vendorCVEs := vendorCVEs st ++ defRecords ToLower (Def_Metadata advisory) |}.
Proof.
  unfold pkgStep. rewrite bduStep_foldl. cbn [fst snd].
  rewrite cveStep_foldl, toReferences_map.
  unfold factEmissions, defRecords, recordsOf, ownRecord.
  f_equal.
  - destruct (decide (vendorID (References (Def_Metadata advisory)) ≠ ""));
      [by rewrite <- app_assoc|].
    rewrite <- app_assoc.
    exact (foldl_insert_map
             (singleEmission (Def_Metadata advisory) affectedPkg) _ _).
  - by rewrite <- app_assoc.
Qed.

Lemma pkgStep_foldl (advisory : Definition_) (pkgs : list pkg) (st : BuildState) :
  foldl (pkgStep ToLower advisory) st pkgs
  = {| defs := insertAll (defs st)
                 (flat_map (factEmissions ToLower (Def_Metadata advisory)) pkgs);
       vendorCVEs := vendorCVEs st
                     ++ flat_map (fun _ => defRecords ToLower (Def_Metadata advisory))
                                 pkgs |}.
Proof.
  revert st. induction pkgs as [|p pkgs IH]; intros st; simpl.
  - destruct st. by rewrite app_nil_r.
  - rewrite IH, pkgStep_eq. cbn [defs vendorCVEs].
    by rewrite insertAll_app, <- app_assoc.
Qed.

Lemma defStep_foldl (tests : gmap string resolvedTest)
    (definitions : list Definition_) (st : BuildState) :
  foldl (defStep ToLower tests) st definitions
  = {| defs := insertAll (defs st) (emissions ToLower tests definitions);
       vendorCVEs := vendorCVEs st ++ fileRecords ToLower tests definitions |}.
Proof.
  revert st. induction definitions as [|advisory ds IH]; intros st; simpl.
  - destruct st. by rewrite app_nil_r.
  - rewrite IH. unfold defStep.
    destruct (Contains (Def_ID advisory) "unaffected"); [done|].
    rewrite pkgStep_foldl. cbn [defs vendorCVEs].
    by rewrite insertAll_app, <- app_assoc.
Qed.

Lemma parseOVAL_eq (dir : OVALDir) (tests : gmap string resolvedTest)
    (definitions : list Definition_) (vendorCVEs0 : list VendorCVE) :
  resolveTests dir = Ok tests →
  parseDefinitions dir = Ok definitions →
  parseOVAL ToLower dir vendorCVEs0
  = (Ok (insertAll ∅ (emissions ToLower tests definitions)),
     vendorCVEs0 ++ fileRecords ToLower tests definitions).
Proof.
  intros Ht Hd. unfold parseOVAL. rewrite Ht, Hd, defStep_foldl. done.
Qed.


Lemma parseOVAL_Ok (dir : OVALDir) (vendorCVEs0 vendorCVEs1 : list VendorCVE)
    (m : gmap bucket DefinitionSpecial) :
  parseOVAL ToLower dir vendorCVEs0 = (Ok m, vendorCVEs1) →
  vendorCVEs1 = vendorCVEs0 ++ dirRecords ToLower dir.
Proof.
  unfold dirRecords.
  destruct (resolveTests dir) as [tests|] eqn:Ht;
    [|unfold parseOVAL; rewrite Ht; done].
  destruct (parseDefinitions dir) as [definitions|] eqn:Hd;
    [|unfold parseOVAL; rewrite Ht, Hd; done].
  rewrite (parseOVAL_eq _ _ _ _ Ht Hd). by intros [= _ <-].
Qed.

End BuilderFacts.

Lemma length_flat_map_const {A B} (l : list B) (xs : list A) :
  length (flat_map (fun _ => l) xs) = length xs * length l.
Proof.
  induction xs as [|x xs IH]; simpl; [done|]. rewrite length_app, IH. lia.
Qed.

(** C3 (as the code has it): the catalog records are appended inside the
    loop over the affected-package facts: for every fact of a processed
    definition, one record for the vendor's own entry (title, description,
    reference URLs) and then one per bulletin (empty title and description,
    the bulletin's link as its references).  A processed definition with
    [n] facts and [b] bulletins appends [n * (1 + b)] records, a definition
    marked unaffected none; a CVE cross-reference adds no record. *)
Theorem parseOVAL_catalog_records (ToLower : string → string) (dir : OVALDir)
    (tests : gmap string resolvedTest) (definitions : list Definition_)
    (vendorCVEs0 : list VendorCVE) :
  resolveTests dir = Ok tests →
  parseDefinitions dir = Ok definitions →
  (parseOVAL ToLower dir vendorCVEs0).2
    = vendorCVEs0 ++ fileRecords ToLower tests definitions
  ∧ (∀ advisory,
       fileRecords ToLower tests [advisory]
       = if Contains (Def_ID advisory) "unaffected" then []
         else flat_map
                (fun _ => ownRecord ToLower (Def_Metadata advisory)
                          :: map (bduRecord ToLower)
                                 (BDUs (Meta_Advisory (Def_Metadata advisory))))
                (walkCriterion (Def_Criteria advisory) tests))
  ∧ (∀ advisory,
       length (fileRecords ToLower tests [advisory])
       = if Contains (Def_ID advisory) "unaffected" then 0
         else length (walkCriterion (Def_Criteria advisory) tests)
              * (1 + length (BDUs (Meta_Advisory (Def_Metadata advisory))))).
Proof.
  intros Ht Hd. rewrite (parseOVAL_eq _ _ _ _ _ Ht Hd).
  split; [done|]. split; intros advisory; unfold fileRecords; simpl;
    rewrite app_nil_r; destruct (Contains (Def_ID advisory) "unaffected"); try done.
  rewrite length_flat_map_const. unfold defRecords. simpl. by rewrite length_map.
Qed.

Lemma parseOVAL_catalog_records_witness :
  (parseOVAL asciiToLower ex_dirTwoFacts []).2
  = [] ++ fileRecords asciiToLower ex_resolved [ex_defTwoFacts].
Proof.
  apply (parseOVAL_catalog_records asciiToLower ex_dirTwoFacts ex_resolved
           [ex_defTwoFacts] []); vm_compute; reflexivity.
Defined.

(** C3 (as stated) fails: one processed definition without bulletins whose
    criteria tree yields two facts appends two records to the accumulator,
    not one. *)
Lemma parseOVAL_catalog_once_per_fact :
  Contains (Def_ID ex_defTwoFacts) "unaffected" = false
  ∧ length (walkCriterion (Def_Criteria ex_defTwoFacts) ex_resolved) = 2
  ∧ length (parseOVAL asciiToLower ex_dirTwoFacts []).2
    ≠ 1 + length (BDUs (Meta_Advisory (Def_Metadata ex_defTwoFacts))).
Proof. repeat split; vm_compute; [reflexivity .. | discriminate]. Qed.

(** C10 (as the code has it): the per-file result is a map with one entry
    per bucket.  Every fact of a processed definition with a canonical
    vendor identifier emits one entry under (packageName, vendorID), and
    the bucket is in the result; for each bucket the result holds the entry
    emitted last for it, in the order of the definitions and of their
    facts. *)
Theorem parseOVAL_last_emission_per_bucket (ToLower : string → string)
    (dir : OVALDir) (tests : gmap string resolvedTest)
    (definitions : list Definition_) (vendorCVEs0 : list VendorCVE) :
  resolveTests dir = Ok tests →
  parseDefinitions dir = Ok definitions →
  ∃ defs,
    (parseOVAL ToLower dir vendorCVEs0).1 = Ok defs
    ∧ (∀ k, defs !! k = lastEmitted k (emissions ToLower tests definitions))
    ∧ (∀ advisory affectedPkg,
         advisory ∈ definitions →
         Contains (Def_ID advisory) "unaffected" = false →
         affectedPkg ∈ walkCriterion (Def_Criteria advisory) tests →
         vendorID (References (Def_Metadata advisory)) ≠ "" →
         factEmissions ToLower (Def_Metadata advisory) affectedPkg
         = [ ({| packageName := pkg_Name affectedPkg;
                 vulnerabilityID := vendorID (References (Def_Metadata advisory)) |},
              {| Def_Entry :=
                   {| Entry_CVEs := recordsOf ToLower (Def_Metadata advisory);
                      Entry_FixedVersion := pkg_FixedVersion affectedPkg;
                      AffectedCPEList :=
                        AffectedCPEs (Meta_Advisory (Def_Metadata advisory));
                      Entry_Arches := pkg_Arches affectedPkg |} |}) ]
         ∧ is_Some (defs !! {| packageName := pkg_Name affectedPkg;
                               vulnerabilityID :=
                                 vendorID (References (Def_Metadata advisory)) |})).
Proof.
  intros Ht Hd. rewrite (parseOVAL_eq _ _ _ _ _ Ht Hd). eexists.
  split; [done|]. split.
  { intros k. rewrite insertAll_lookup, lookup_empty.
    by destruct (lastEmitted k _). }
  intros advisory affectedPkg Hadv Hun Hpkg Hid.
  assert (factEmissions ToLower (Def_Metadata advisory) affectedPkg
          = [vendorEmission ToLower (Def_Metadata advisory) affectedPkg]) as Hem.
  { unfold factEmissions. by destruct (decide _). }
  split; [exact Hem|].
  rewrite insertAll_lookup, lookup_empty.
  assert (vendorEmission ToLower (Def_Metadata advisory) affectedPkg
          ∈ emissions ToLower tests definitions) as Hin.
  { apply list_elem_of_In, in_flat_map. exists advisory.
    split; [by apply list_elem_of_In|]. rewrite Hun.
    apply in_flat_map. exists affectedPkg.
    split; [by apply list_elem_of_In|]. rewrite Hem. by left. }
  unfold lastEmitted.
  match goal with |- context [filter ?P ?l] =>
    assert (vendorEmission ToLower (Def_Metadata advisory) affectedPkg
            ∈ filter P l) as Hf by (by apply list_elem_of_filter)
  end.
  destruct (filter _ (emissions ToLower tests definitions)) as [|p l] eqn:Hfl.
  { by apply elem_of_nil in Hf. }
  destruct (last (p :: l)) as [q|] eqn:Hl; [by eexists|].
  by apply last_None in Hl.
Qed.

Lemma parseOVAL_last_emission_per_bucket_witness :
  ∃ defs, (parseOVAL asciiToLower ex_dirTwoFacts []).1 = Ok defs
          ∧ defs !! ex_bucket
            = lastEmitted ex_bucket (emissions asciiToLower ex_resolved [ex_defTwoFacts]).
Proof.
  assert (resolveTests ex_dirTwoFacts = Ok ex_resolved) as Ht
    by (vm_compute; reflexivity).
  assert (parseDefinitions ex_dirTwoFacts = Ok [ex_defTwoFacts]) as Hd
    by reflexivity.
  destruct (parseOVAL_last_emission_per_bucket asciiToLower _ _ _ [] Ht Hd)
    as (defs & Hdefs & Hlast & _).
  exists defs. split; [exact Hdefs | apply Hlast].
Defined.

(** C10 (as stated) fails: the two facts of one definition fall into the
    same bucket, both entries are emitted, and the per-file result holds
    the second alone. *)
Lemma parseOVAL_later_fact_replaces_earlier :
  emissions asciiToLower ex_resolved [ex_defTwoFacts]
  = [ (ex_bucket, {| Def_Entry := ex_variant "1.2-4" ["x86_64"; "i586"] |});
      (ex_bucket, {| Def_Entry := ex_variant "1.2-5" ["aarch64"] |}) ]
  ∧ (parseOVAL asciiToLower ex_dirTwoFacts []).1 = Ok (ex_fileOf ex_dirTwoFacts)
  ∧ map_to_list (ex_fileOf ex_dirTwoFacts)
    = [ (ex_bucket, {| Def_Entry := ex_variant "1.2-5" ["aarch64"] |}) ].
Proof. repeat split; vm_compute; reflexivity. Qed.

(** ** C4: the vendor catalog across runs *)

Section RunFacts.

Variable ToLower : string → string.
Variable storageFails : DBCall → bool.

Lemma put_Ok (msg : string) (c : DBCall) (tx tx' : list DBCall) :
  put storageFails msg c tx = Ok tx' → tx' = tx ++ [c].
Proof. unfold put. destruct (storageFails c); [done | by intros [= <-]]. Qed.

Lemma putVendorLoop_catalog (cves : list VendorCVE) (tx tx' : list DBCall) :
  putVendorLoop storageFails cves tx = Ok tx' →
  catalogWrites tx' = catalogWrites tx ++ map detailOf cves.
Proof.
  revert tx. induction cves as [|cve cves IH]; intros tx; simpl.
  { intros [= <-]. by rewrite app_nil_r. }
  unfold putVendorVulnerabilityDetail.
  destruct (put _ _ (PutVulnerabilityDetail _ _) tx) as [tx1|] eqn:H1; [|done].
  destruct (put _ _ (PutVulnerabilityID _) tx1) as [tx2|] eqn:H2; [|done].
  apply put_Ok in H1 as ->. apply put_Ok in H2 as ->.
  intros Hrest. rewrite (IH _ Hrest). unfold catalogWrites.
  rewrite !omap_app. simpl. by rewrite app_nil_r, <- app_assoc.
Qed.

Lemma saveLoop_catalog (advisories : list (bucket * AdvisorySpecial))
    (tx tx' : list DBCall) :
  saveLoop storageFails advisories tx = Ok tx' →
  catalogWrites tx' = catalogWrites tx.
Proof.
  revert tx. induction advisories as [|[bkt advisory] l IH]; intros tx; simpl.
  { by intros [= <-]. }
  destruct (put _ _ (PutAdvisoryDetail _ _ _) tx) as [tx1|] eqn:H1; [|done].
  destruct (put _ _ (PutVulnerabilityID _) tx1) as [tx2|] eqn:H2; [|done].
  apply put_Ok in H1 as ->. apply put_Ok in H2 as ->.
  intros Hrest. rewrite (IH _ Hrest). unfold catalogWrites.
  rewrite !omap_app. simpl. by rewrite !app_nil_r.
Qed.

Lemma putVendorCVEs_catalog (p : Process) (db' : list DBCall) :
  putVendorCVEs storageFails p = Ok db' →
  ∃ tx, db' = proc_db p ++ tx
        ∧ catalogWrites tx = map detailOf (proc_vendorCVEs p).
Proof.
  unfold putVendorCVEs, BatchUpdate.
  destruct (putVendorLoop _ _ []) as [tx|] eqn:Htx; [|done].
  intros [= <-]. exists tx. split; [done|].
  by rewrite (putVendorLoop_catalog _ _ _ Htx).
Qed.

Lemma save_catalog (advisories : gmap bucket AdvisorySpecial)
    (db db' : list DBCall) :
  save storageFails advisories db = Ok db' →
  ∃ tx, db' = db ++ tx ∧ catalogWrites tx = [].
Proof.
  unfold save, BatchUpdate.
  destruct (put _ _ PutDataSource []) as [tx0|] eqn:H0; [|done].
  apply put_Ok in H0 as ->.
  destruct (saveLoop _ _ _) as [tx|] eqn:Htx; [|done].
  intros [= <-]. exists tx. split; [done|].
  by rewrite (saveLoop_catalog _ _ _ Htx).
Qed.

Lemma productsLoop_Ok (products : list OVALDir)
    (advisories advisories' : gmap bucket AdvisorySpecial)
    (vendorCVEs0 vendorCVEs1 : list VendorCVE) :
  productsLoop ToLower products advisories vendorCVEs0 = (Ok advisories', vendorCVEs1) →
  vendorCVEs1 = vendorCVEs0 ++ flat_map (dirRecords ToLower) products.
Proof.
  revert advisories vendorCVEs0.
  induction products as [|f rest IH]; intros advisories v0; simpl.
  { intros [= _ <-]. by rewrite app_nil_r. }
  destruct (parseOVAL ToLower f v0) as [[definitions|e] v] eqn:Hp; [|done].
  apply parseOVAL_Ok in Hp as ->. intros Hrest.
  rewrite (IH _ _ Hrest). by rewrite <- app_assoc.
Qed.

Lemma branchesLoop_Ok (branches : list (result (list OVALDir)))
    (advisories advisories' : gmap bucket AdvisorySpecial)
    (vendorCVEs0 vendorCVEs1 : list VendorCVE) :
  branchesLoop ToLower branches advisories vendorCVEs0 = (Ok advisories', vendorCVEs1) →
  vendorCVEs1 = vendorCVEs0 ++ runRecords ToLower (Ok branches).
Proof.
  revert advisories vendorCVEs0.
  induction branches as [|[products|e] rest IH]; intros advisories v0; simpl.
  - intros [= _ <-]. by rewrite app_nil_r.
  - destruct (productsLoop ToLower products advisories v0)
      as [[advisories1|e] v] eqn:Hp; [|done].
    apply productsLoop_Ok in Hp as ->. intros Hrest.
    rewrite (IH _ _ Hrest). simpl. by rewrite <- app_assoc.
  - done.
Qed.

End RunFacts.

(** C4 (as the code has it): [vendorCVEs] is a package-level variable that
    [Update] never resets.  A run that succeeds hands to the storage the
    catalog records the variable held when the run began, followed by those
    derived from the input files of this run, and leaves all of them in the
    variable; the records persisted are exactly those of this run's input
    only when the variable was empty at the start, as in the first run of a
    process. *)
Theorem Update_persists_accumulated_catalog (ToLower : string → string)
    (storageFails : DBCall → bool) (root : Tree) (p p' : Process) :
  Update ToLower storageFails root p = (None, p') →
  proc_vendorCVEs p' = proc_vendorCVEs p ++ runRecords ToLower root
  ∧ proc_db p `prefix_of` proc_db p'
  ∧ catalogWrites (drop (length (proc_db p)) (proc_db p'))
    = map detailOf (proc_vendorCVEs p ++ runRecords ToLower root)
  ∧ (proc_vendorCVEs p = [] →
     catalogWrites (drop (length (proc_db p)) (proc_db p'))
     = map detailOf (runRecords ToLower root)).
Proof.
  unfold Update. destruct root as [branches|e]; [|done].
  destruct (branchesLoop ToLower branches ∅ (proc_vendorCVEs p))
    as [[advisories|e] v] eqn:Hb; [|done].
  apply branchesLoop_Ok in Hb as ->.
  destruct (putVendorCVEs _ _) as [db1|] eqn:H1; [|done].
  destruct (save _ advisories db1) as [db2|] eqn:H2; [|done].
  intros [= <-]. cbn [proc_vendorCVEs proc_db].
  apply putVendorCVEs_catalog in H1 as (tx1 & -> & Hc1).
  apply save_catalog in H2 as (tx2 & -> & Hc2).
  cbn [proc_vendorCVEs proc_db] in *.
  assert (catalogWrites (drop (length (proc_db p)) ((proc_db p ++ tx1) ++ tx2))
          = map detailOf (proc_vendorCVEs p ++ runRecords ToLower (Ok branches)))
    as Hw.
  { rewrite <- app_assoc, drop_app_length. unfold catalogWrites in *.
    by rewrite omap_app, Hc1, Hc2, app_nil_r. }
  split; [done|]. split; [|split; [exact Hw|]].
  - rewrite <- app_assoc. by apply prefix_app_r.
  - intros Hempty. rewrite Hw, Hempty. done.
Qed.

Lemma Update_persists_accumulated_catalog_witness :
  proc_vendorCVEs ex_afterFirstRun
  = proc_vendorCVEs ex_fresh ++ runRecords asciiToLower ex_root.
Proof.
  assert (Update asciiToLower ex_noFailure ex_root ex_fresh = (None, ex_afterFirstRun))
    as Hrun by (vm_compute; reflexivity).
  apply (Update_persists_accumulated_catalog _ _ _ _ _ Hrun).
Defined.

(** C4 (as stated) fails: after a first run in the process, a second run
    over a root without any input file succeeds and hands the records of
    the first run to the storage again. *)
Lemma Update_second_run_persists_first_run_records :
  (Update asciiToLower ex_noFailure ex_root ex_fresh).1 = None
  ∧ (Update asciiToLower ex_noFailure ex_emptyRoot ex_afterFirstRun).1 = None
  ∧ runRecords asciiToLower ex_emptyRoot = []
  ∧ catalogWrites (drop (length (proc_db ex_afterFirstRun))
                        (proc_db ex_afterSecondRun))
    ≠ map detailOf (runRecords asciiToLower ex_emptyRoot).
Proof. repeat split; vm_compute; [reflexivity .. | discriminate]. Qed.

(** ** C5: the query *)

Section QueryFacts.

Variable unmarshal : string → option AdvisorySpecial.
Variable ForEachAdvisory : string → result (list (string * string)).

Lemma cveLoop_eq (vulnID : string) (entry : Entry) (advisories : list TAdvisory) :
  cveLoop vulnID entry advisories
  = advisories ++ map (resultOf vulnID entry) (Entry_CVEs entry).
Proof.
  unfold cveLoop, resultOf. revert advisories.
  induction (Entry_CVEs entry) as [|cve l IH]; intros advisories; simpl.
  - by rewrite app_nil_r.
  - rewrite IH, <- app_assoc. by destruct (HasPrefix vulnID "CVE-").
Qed.

Lemma entryLoop_eq (vulnID cpe : string) (adv : AdvisorySpecial)
    (advisories : list TAdvisory) :
  entryLoop vulnID cpe adv advisories
  = advisories
    ++ flat_map (fun entry =>
                   if contains (AffectedCPEList entry) cpe
                   then map (resultOf vulnID entry) (Entry_CVEs entry)
                   else [])
                (Entries adv).
Proof.
  unfold entryLoop. revert advisories.
  induction (Entries adv) as [|entry l IH]; intros advisories; simpl.
  - by rewrite app_nil_r.
  - rewrite IH. destruct (contains (AffectedCPEList entry) cpe); simpl.
    + by rewrite cveLoop_eq, <- app_assoc.
    + done.
Qed.

Lemma rawLoop_eq (rawAdvisories : list (string * string)) (cpe : string)
    (advisories : list TAdvisory) :
  decodable unmarshal rawAdvisories →
  rawLoop unmarshal rawAdvisories cpe advisories
  = Ok (advisories ++ queryResults unmarshal rawAdvisories cpe).
Proof.
  unfold queryResults. revert advisories.
  induction rawAdvisories as [|[vulnID content] rest IH];
    intros advisories Hdec; simpl.
  { by rewrite app_nil_r. }
  assert (decodable unmarshal rest) as Hrest.
  { intros v c Hin Hc. apply (Hdec v c); [by right | done]. }
  destruct (decide (String.length content = 0)) as [Hlen|Hlen].
  { by apply IH. }
  assert (is_Some (unmarshal content)) as [adv Hadv].
  { apply (Hdec vulnID content); [left | done]. }
  rewrite Hadv, (IH _ Hrest), entryLoop_eq, <- app_assoc. done.
Qed.

Lemma contains_elem_of (lst : list string) (val : string) :
  contains lst val = true ↔ val ∈ lst.
Proof.
  unfold contains. rewrite existsb_exists. split.
  - intros (e & Hin & ->%bool_decide_eq_true). by apply list_elem_of_In.
  - intros Hin. exists val. split; [by apply list_elem_of_In|].
    by apply bool_decide_eq_true.
Qed.

Lemma queryResults_elem_of (rawAdvisories : list (string * string))
    (cpe : string) (a : TAdvisory) :
  a ∈ queryResults unmarshal rawAdvisories cpe
  ↔ ∃ vulnID content adv entry cve,
      (vulnID, content) ∈ rawAdvisories ∧ String.length content ≠ 0
      ∧ unmarshal content = Some adv ∧ entry ∈ Entries adv
      ∧ cpe ∈ AffectedCPEList entry ∧ cve ∈ Entry_CVEs entry
      ∧ a = resultOf vulnID entry cve.
Proof.
  unfold queryResults. rewrite list_elem_of_In, in_flat_map. split.
  - intros ([vulnID content] & Hraw & Ha). simpl in Ha.
    destruct (decide (String.length content = 0)); [done|].
    destruct (unmarshal content) as [adv|] eqn:Hadv; [|done].
    apply in_flat_map in Ha as (entry & Hentry & Ha).
    destruct (contains (AffectedCPEList entry) cpe) eqn:Hcpe; [|done].
    apply in_map_iff in Ha as (cve & <- & Hcve).
    exists vulnID, content, adv, entry, cve.
    rewrite !list_elem_of_In. repeat split; try done.
    by apply list_elem_of_In, contains_elem_of.
  - intros (vulnID & content & adv & entry & cve
            & Hraw & Hlen & Hadv & Hentry & Hcpe & Hcve & ->).
    exists (vulnID, content). split; [by apply list_elem_of_In|]. simpl.
    destruct (decide (String.length content = 0)); [done|]. rewrite Hadv.
    apply in_flat_map. exists entry. split; [by apply list_elem_of_In|].
    apply contains_elem_of in Hcpe. rewrite Hcpe.
    apply in_map. by apply list_elem_of_In.
Qed.

End QueryFacts.

(** C5 (as the code has it): over stored values that decode, [Get] returns
    one result per vulnerability record of every stored entry that lists
    the queried platform.  The bucket key is the primary vulnerability ID,
    with no vendor IDs, exactly when it begins with ["CVE-"]; for every
    other bucket key the primary ID is the identifier embedded in the
    record and the bucket key is the one vendor ID. *)
Theorem Get_primary_id_by_CVE_prefix
    (unmarshal : string → option AdvisorySpecial)
    (ForEachAdvisory : string → result (list (string * string)))
    (pkgName cpe : string) (rawAdvisories : list (string * string)) :
  ForEachAdvisory pkgName = Ok rawAdvisories →
  decodable unmarshal rawAdvisories →
  Get unmarshal ForEachAdvisory pkgName cpe
    = Ok (queryResults unmarshal rawAdvisories cpe)
  ∧ (∀ a, a ∈ queryResults unmarshal rawAdvisories cpe
       ↔ ∃ vulnID content adv entry cve,
           (vulnID, content) ∈ rawAdvisories ∧ String.length content ≠ 0
           ∧ unmarshal content = Some adv ∧ entry ∈ Entries adv
           ∧ cpe ∈ AffectedCPEList entry ∧ cve ∈ Entry_CVEs entry
           ∧ a = resultOf vulnID entry cve)
  ∧ (∀ vulnID entry cve,
       TSeverity (resultOf vulnID entry cve) = Entry_Severity cve
       ∧ TFixedVersion (resultOf vulnID entry cve) = Entry_FixedVersion entry
       ∧ TArches (resultOf vulnID entry cve) = Entry_Arches entry
       ∧ (HasPrefix vulnID "CVE-" = true →
          VulnerabilityID (resultOf vulnID entry cve) = vulnID
          ∧ VendorIDs (resultOf vulnID entry cve) = [])
       ∧ (HasPrefix vulnID "CVE-" = false →
          VulnerabilityID (resultOf vulnID entry cve) = Entry_ID cve
          ∧ VendorIDs (resultOf vulnID entry cve) = [vulnID])).
Proof.
  intros Hraw Hdec. split; [|split].
  - unfold Get. rewrite Hraw. by rewrite rawLoop_eq.
  - intros a. apply queryResults_elem_of.
  - intros vulnID entry cve. unfold resultOf. simpl.
    do 3 (split; [done|]). split; intros ->; done.
Qed.

Lemma Get_primary_id_by_CVE_prefix_witness :
  Get ex_unmarshal ex_store "libfoo" "cpe:/o:alt:workstation:10"
  = Ok (queryResults ex_unmarshal [("BDU:2024-00001", "bulletin-advisory")]
          "cpe:/o:alt:workstation:10").
Proof.
  apply (Get_primary_id_by_CVE_prefix ex_unmarshal ex_store "libfoo"
           "cpe:/o:alt:workstation:10" [("BDU:2024-00001", "bulletin-advisory")]).
  - reflexivity.
  - intros vulnID content Hin _.
    apply list_elem_of_singleton in Hin. injection Hin as -> ->.
    eexists. reflexivity.
Defined.

(** C5 (as stated) fails: a definition without a canonical vendor
    identifier puts its bulletin under the bucket of the bulletin's
    identifier; the query over that bucket returns a result whose primary
    ID is the (cleared) identifier of the record, not the bucket key, and
    carries the bucket key as vendor ID. *)
Lemma Get_bulletin_key_not_primary :
  vendorID (References (Def_Metadata ex_defBulletin)) = ""
  ∧ mergeAdvisories ∅ (ex_fileOf ex_dirBulletin) !! ex_bulletinBucket
    = Some ex_bulletinAdvisory
  ∧ Get ex_unmarshal ex_store "libfoo" "cpe:/o:alt:workstation:10"
    = Ok [ {| VulnerabilityID := ""; VendorIDs := ["BDU:2024-00001"];
              TSeverity := SeverityHigh; TFixedVersion := "1.2-4";
              TArches := ["x86_64"; "i586"] |} ].
Proof. repeat split; vm_compute; reflexivity. Qed.

(** * Further properties of the code *)

(** ** The reference resolver *)

Lemma foldl_insert_lookup {A V} (key : A → string) (val : A → V) (l : list A)
    (acc : gmap string V) (k : string) :
  foldl (fun m x => <[key x := val x]> m) acc l !! k
  = match lastWith key k l with
    | Some x => Some (val x)
    | None => acc !! k
    end.
Proof.
  unfold lastWith. induction l as [|x l IH] using rev_ind; [done|].
  rewrite foldl_app, filter_app. simpl. rewrite filter_cons, filter_nil.
  destruct (decide (key x = k)) as [<-|Hne].
  - by rewrite lookup_insert_eq, last_snoc.
  - by rewrite lookup_insert_ne, app_nil_r.
Qed.

(** X1: a test whose object reference resolves never fails on an empty
    state reference and then carries the object's name alone; with a state
    reference that resolves, the architecture pattern is the text of the
    architecture matcher only for datatype ["string"] with operation
    ["pattern match"] or ["equals"], the fixed version is the text of the
    version matcher only for datatype ["evr_string"] with operation
    ["less than"], and any other shape leaves the field empty without an
    error. *)
Theorem followTestRefs_resolved (test : RPMInfoTest)
    (objects : gmap string RPMInfoObject) (states : gmap string RPMInfoState)
    (obj : RPMInfoObject) :
  ObjectRef test ≠ "" →
  objects !! ObjectRef test = Some obj →
  (StateRef test = "" →
   followTestRefs test objects states
   = ({| Name := Object_Name obj; FixedVersion := ""; Arch := "" |}, None))
  ∧ (∀ state, StateRef test ≠ "" → states !! StateRef test = Some state →
     followTestRefs test objects states
     = ({| Name := Object_Name obj;
           FixedVersion := if decide (evrShape (State_EVR state))
                           then Text (State_EVR state) else "";
           Arch := if decide (archShape (State_Arch state))
                   then Text (State_Arch state) else "" |}, None)).
Proof.
  intros Ho Hobj. unfold followTestRefs.
  destruct (decide (ObjectRef test = "")); [done|]. rewrite Hobj. split.
  - intros Hs. by destruct (decide (StateRef test = "")).
  - intros state Hs Hst. destruct (decide (StateRef test = "")); [done|].
    rewrite Hst. unfold archShape, evrShape.
    destruct (decide (Datatype (State_Arch state) = "string")) as [Ha|Ha];
      destruct (decide (Operation (State_Arch state) = "pattern match")) as [Hp|Hp];
      destruct (decide (Operation (State_Arch state) = "equals")) as [He|He];
      destruct (decide (Datatype (State_EVR state) = "evr_string")) as [Hv|Hv];
      destruct (decide (Operation (State_EVR state) = "less than")) as [Hl|Hl];
      repeat (first [ rewrite bool_decide_eq_true_2 by done
                    | rewrite bool_decide_eq_false_2 by done ]);
      simpl;
      repeat (first [ rewrite decide_True by tauto
                    | rewrite decide_False by tauto ]);
      reflexivity.
Qed.

Lemma followTestRefs_resolved_witness :
  followTestRefs
    {| Test_ID := "oval:org.altlinux.errata:tst:1";
       ObjectRef := "oval:org.altlinux.errata:obj:1"; StateRef := "" |}
    {[ "oval:org.altlinux.errata:obj:1" :=
         {| Object_ID := "oval:org.altlinux.errata:obj:1"; Object_Name := "libfoo" |} ]}
    ∅
  = ({| Name := "libfoo"; FixedVersion := ""; Arch := "" |}, None).
Proof.
  refine (proj1 (followTestRefs_resolved _ _ ∅
                   {| Object_ID := "oval:org.altlinux.errata:obj:1";
                      Object_Name := "libfoo" |} _ _) _).
  - vm_compute. discriminate.
  - vm_compute. reflexivity.
  - reflexivity.
Defined.

Lemma resolveLoop_Ok (tests : list RPMInfoTest)
    (objects : gmap string RPMInfoObject) (states : gmap string RPMInfoState)
    (rpmTests : gmap string resolvedTest) :
  Forall (fun test => ¬ dangling test objects states) tests →
  resolveLoop tests objects states rpmTests
  = Ok (foldl (fun m test =>
                 <[Test_ID test := (followTestRefs test objects states).1]> m)
              rpmTests tests).
Proof.
  revert rpmTests. induction tests as [|test tests IH]; intros rpmTests Hall; [done|].
  inversion Hall as [|? ? Hnd Hrest]; subst. simpl.
  pose proof (followTestRefs_error test objects states) as Hf.
  destruct (followTestRefs test objects states) as [t [err|]]; simpl in *.
  - exfalso. apply Hnd, Hf. by eexists.
  - by apply IH.
Qed.

(** X2: when no test of the file has a dangling reference, [resolveTests]
    returns a map that holds, for every test ID, the fact of the LAST test
    of the list with that ID, and nothing for an ID no test has. *)
Theorem resolveTests_last_test_wins (dir : OVALDir)
    (objects : gmap string RPMInfoObject) (states : gmap string RPMInfoState)
    (tests : list RPMInfoTest) :
  parseObjects dir = Ok objects →
  parseStates dir = Ok states →
  parseTests dir = Ok tests →
  Forall (fun test => ¬ dangling test objects states) tests →
  ∃ rpmTests,
    resolveTests dir = Ok rpmTests
    ∧ ∀ id, rpmTests !! id
            = (fun test => (followTestRefs test objects states).1)
                <$> lastWith Test_ID id tests.
Proof.
  intros Hobjects Hstates Htests Hall. eexists. split.
  - unfold resolveTests. rewrite Hobjects, Hstates, Htests.
    by apply resolveLoop_Ok.
  - intros id. rewrite foldl_insert_lookup, lookup_empty.
    by destruct (lastWith Test_ID id tests).
Qed.

Lemma resolveTests_last_test_wins_witness :
  ∃ rpmTests, resolveTests ex_dirTwoFacts = Ok rpmTests
    ∧ rpmTests !! "oval:org.altlinux.errata:tst:2"
      = Some {| Name := "libfoo"; FixedVersion := "1.2-5"; Arch := "aarch64" |}.
Proof.
  assert (∃ objects, parseObjects ex_dirTwoFacts = Ok objects) as [objects Ho]
    by (eexists; reflexivity).
  assert (∃ states, parseStates ex_dirTwoFacts = Ok states) as [states Hs]
    by (eexists; reflexivity).
  assert (Forall (fun test => ¬ dangling test objects states) ex_tests) as Hall.
  { injection Ho as <-. injection Hs as <-.
    repeat constructor; intros [_ [H|[_ H]]]; vm_compute in H; discriminate H. }
  destruct (resolveTests_last_test_wins ex_dirTwoFacts objects states ex_tests
              Ho Hs eq_refl Hall) as (rpmTests & Hr & Hl).
  exists rpmTests. split; [exact Hr|]. rewrite Hl.
  injection Ho as <-. injection Hs as <-. vm_compute. reflexivity.
Defined.

(** X3: the error [resolveTests] reports is that of the first test of the
    list with a dangling reference; the tests after it are not looked at. *)
Theorem resolveLoop_first_error (pre rest : list RPMInfoTest) (test : RPMInfoTest)
    (objects : gmap string RPMInfoObject) (states : gmap string RPMInfoState)
    (rpmTests : gmap string resolvedTest) (err : Error) :
  Forall (fun test' => ¬ dangling test' objects states) pre →
  (followTestRefs test objects states).2 = Some err →
  resolveLoop (pre ++ test :: rest) objects states rpmTests = Err err.
Proof.
  revert rpmTests. induction pre as [|t pre IH]; intros rpmTests Hpre Herr; simpl.
  - destruct (followTestRefs test objects states) as [t' o]. simpl in Herr.
    by rewrite Herr.
  - inversion Hpre as [|? ? Hnd Hrest]; subst.
    pose proof (followTestRefs_error t objects states) as Hf.
    destruct (followTestRefs t objects states) as [t' [e|]]; simpl in *.
    + exfalso. apply Hnd, Hf. by eexists.
    + by apply IH.
Qed.

Lemma resolveLoop_first_error_witness :
  resolveLoop ([] ++ ex_testNoObject :: [ex_testStateOnly]) ∅ ∅ ∅
  = Err (ErrObjectRef "oval:org.altlinux.errata:obj:404"
                      "oval:org.altlinux.errata:tst:7").
Proof.
  apply (resolveLoop_first_error [] [ex_testStateOnly] ex_testNoObject ∅ ∅ ∅).
  - constructor.
  - reflexivity.
Defined.

(** X4: the object table and the state table built from the files hold,
    for every identifier, the LAST record of the file with that identifier
    (a later duplicate replaces an earlier one) and nothing for an
    identifier no record has. *)
Theorem parseObjects_parseStates_last_record_wins (dir : OVALDir)
    (objs : list RPMInfoObject) (ss : list RPMInfoState) :
  objects_json dir = Ok objs →
  states_json dir = Ok ss →
  ∃ objects states,
    parseObjects dir = Ok objects
    ∧ parseStates dir = Ok states
    ∧ (∀ id, objects !! id = lastWith Object_ID id objs)
    ∧ (∀ id, states !! id = lastWith State_ID id ss).
Proof.
  intros Ho Hs. unfold parseObjects, parseStates. rewrite Ho, Hs.
  do 2 eexists. split; [done|]. split; [done|]. split; intros id.
  - rewrite (foldl_insert_lookup Object_ID (fun x => x)), lookup_empty.
    by destruct (lastWith Object_ID id objs).
  - rewrite (foldl_insert_lookup State_ID (fun x => x)), lookup_empty.
    by destruct (lastWith State_ID id ss).
Qed.

Lemma parseObjects_parseStates_last_record_wins_witness :
  ∃ objects states,
    parseObjects ex_dirTwoFacts = Ok objects
    ∧ parseStates ex_dirTwoFacts = Ok states
    ∧ (∀ id, objects !! id = lastWith Object_ID id ex_objects)
    ∧ (∀ id, states !! id = lastWith State_ID id ex_states).
Proof.
  apply (parseObjects_parseStates_last_record_wins ex_dirTwoFacts); reflexivity.
Defined.

(** ** The criteria walk *)

Lemma reachableRefs_flat (refs : list string) :
  reachableRefs (flatCriteria refs) = refs.
Proof.
  unfold flatCriteria. simpl. rewrite app_nil_r, map_map. simpl. apply map_id.
Qed.

(** X5: the nesting of a criteria tree plays no part in the walk: a tree
    yields the same facts, in the same order, as the single node that lists
    its reachable test refs; and over an empty fact map it yields none. *)
Theorem walkCriterion_nesting_irrelevant (tests : gmap string resolvedTest)
    (cri : Criteria) :
  walkCriterion cri tests = walkCriterion (flatCriteria (reachableRefs cri)) tests
  ∧ walkCriterion cri ∅ = [].
Proof.
  split.
  - by rewrite !walkCriterion_reachable, reachableRefs_flat.
  - rewrite walkCriterion_reachable.
    induction (reachableRefs cri) as [|ref refs IH]; [done|].
    simpl. by rewrite lookup_empty.
Qed.

(** ** The advisory builder *)

Lemma vendorID_altpuRefs (refs : list Reference) :
  vendorID refs = vendorID (altpuRefs refs).
Proof.
  unfold altpuRefs. induction refs as [|r refs IH]; [done|].
  rewrite filter_cons. simpl.
  destruct (decide (Source r = "ALTPU")) as [Hs|Hs]; simpl.
  - by rewrite decide_True.
  - done.
Qed.

(** X6: when the references tagged ["ALTPU"] are exactly the ALT-branded
    ones and there is at most one of them, the identifier of the vendor's
    own record is the canonical vendor identifier, so the bucket of a
    definition is named by the first record of its entries. *)
Theorem vendorCVE_id_is_vendorID (ToLower : string → string) (metadata : Metadata) :
  altBrandedRefs (References metadata) = altpuRefs (References metadata) →
  length (altpuRefs (References metadata)) ≤ 1 →
  Entry_ID (vendorCVE ToLower metadata) = vendorID (References metadata).
Proof.
  intros Hsame Hone. unfold vendorCVE. cbn [Entry_ID].
  unfold vendorCVE_id. rewrite vendorCVE_id_foldl, Hsame, vendorID_altpuRefs.
  assert (∀ r, r ∈ altpuRefs (References metadata) → Source r = "ALTPU") as Htag.
  { intros r Hr. unfold altpuRefs in Hr. by apply list_elem_of_filter in Hr as [? _]. }
  destruct (altpuRefs (References metadata)) as [|r [|r' l]]; simpl in *.
  - done.
  - rewrite decide_True; [done|]. apply Htag. left.
  - lia.
Qed.

Lemma vendorCVE_id_is_vendorID_witness :
  Entry_ID (vendorCVE asciiToLower (Def_Metadata ex_defTwoFacts))
  = vendorID (References (Def_Metadata ex_defTwoFacts)).
Proof.
  apply (vendorCVE_id_is_vendorID asciiToLower (Def_Metadata ex_defTwoFacts)).
  - vm_compute. reflexivity.
  - vm_compute. lia.
Defined.




Lemma lastEmitted_elem_of (k : bucket) (d : DefinitionSpecial)
    (l : list (bucket * DefinitionSpecial)) :
  lastEmitted k l = Some d → (k, d) ∈ l.
Proof.
  unfold lastEmitted. intros Hl.
  destruct (last (filter (fun p => p.1 = k) l)) as [[k' d']|] eqn:Hlast; [|done].
  simpl in Hl. injection Hl as ->.
  apply last_Some_elem_of, list_elem_of_filter in Hlast as [Hk Hin].
  simpl in Hk. by subst.
Qed.

Lemma lastEmitted_is_Some (k : bucket) (d : DefinitionSpecial)
    (l : list (bucket * DefinitionSpecial)) :
  (k, d) ∈ l → is_Some (lastEmitted k l).
Proof.
  intros Hin. unfold lastEmitted.
  assert ((k, d) ∈ filter (fun p : bucket * DefinitionSpecial => p.1 = k) l) as Hf
    by (by apply list_elem_of_filter).
  destruct (filter (fun p : bucket * DefinitionSpecial => p.1 = k) l) as [|p l'] eqn:Hfl.
  { by apply elem_of_nil in Hf. }
  destruct (last (p :: l')) as [q|] eqn:Hl; [by eexists|].
  by apply last_None in Hl.
Qed.

Lemma emissions_elem_of (ToLower : string → string)
    (tests : gmap string resolvedTest) (definitions : list Definition_)
    (p : bucket * DefinitionSpecial) :
  p ∈ emissions ToLower tests definitions
  ↔ ∃ advisory affectedPkg,
      advisory ∈ definitions ∧ processed advisory
      ∧ affectedPkg ∈ walkCriterion (Def_Criteria advisory) tests
      ∧ p ∈ factEmissions ToLower (Def_Metadata advisory) affectedPkg.
Proof.
  unfold emissions, processed. rewrite list_elem_of_In, in_flat_map. split.
  - intros (advisory & Hadv & Hp).
    destruct (Contains (Def_ID advisory) "unaffected") eqn:Hun; [done|].
    apply in_flat_map in Hp as (affectedPkg & Hpkg & Hp).
    exists advisory, affectedPkg. by rewrite !list_elem_of_In.
  - intros (advisory & affectedPkg & Hadv & Hun & Hpkg & Hp).
    exists advisory. split; [by apply list_elem_of_In|]. rewrite Hun.
    apply in_flat_map. exists affectedPkg. by rewrite <- !list_elem_of_In.
Qed.

(** X8: the per-file result holds nothing the builder did not derive:
    every entry in it belongs to one fact of one processed definition of
    the file, under the package name of that fact, with the fixed version
    and the architectures of that fact and the platform list of that
    definition; its bucket is named either by the definition's canonical
    vendor identifier, the entry then carrying all the records of the
    definition, or, when the definition has none, by one of its records,
    the entry then carrying that record alone with its identifier
    cleared. *)
Theorem parseOVAL_entries_come_from_facts (ToLower : string → string)
    (dir : OVALDir) (tests : gmap string resolvedTest)
    (definitions : list Definition_) (vendorCVEs0 : list VendorCVE)
    (k : bucket) (d : DefinitionSpecial) :
  resolveTests dir = Ok tests →
  parseDefinitions dir = Ok definitions →
  (∃ defs, (parseOVAL ToLower dir vendorCVEs0).1 = Ok defs ∧ defs !! k = Some d) →
  ∃ advisory affectedPkg,
    advisory ∈ definitions ∧ processed advisory
    ∧ affectedPkg ∈ walkCriterion (Def_Criteria advisory) tests
    ∧ packageName k = pkg_Name affectedPkg
    ∧ Entry_FixedVersion (Def_Entry d) = pkg_FixedVersion affectedPkg
    ∧ Entry_Arches (Def_Entry d) = pkg_Arches affectedPkg
    ∧ AffectedCPEList (Def_Entry d)
      = AffectedCPEs (Meta_Advisory (Def_Metadata advisory))
    ∧ ((vendorID (References (Def_Metadata advisory)) ≠ ""
        ∧ vulnerabilityID k = vendorID (References (Def_Metadata advisory))
        ∧ Entry_CVEs (Def_Entry d)
          = vendorCVE ToLower (Def_Metadata advisory)
            :: map (bduEntryOf ToLower) (BDUs (Meta_Advisory (Def_Metadata advisory)))
            ++ map (cveEntryOf ToLower) (CVEs (Meta_Advisory (Def_Metadata advisory))))
       ∨ (vendorID (References (Def_Metadata advisory)) = ""
          ∧ ∃ cve, cve ∈ recordsOf ToLower (Def_Metadata advisory)
                   ∧ vulnerabilityID k = Entry_ID cve
                   ∧ Entry_CVEs (Def_Entry d)
                     = [ {| Entry_ID := ""; Entry_Severity := Entry_Severity cve |} ])).
Proof.
  intros Ht Hd (defs & Hdefs & Hk).
  rewrite (parseOVAL_eq _ _ _ _ _ Ht Hd) in Hdefs. simpl in Hdefs.
  injection Hdefs as <-.
  rewrite insertAll_lookup, lookup_empty in Hk.
  destruct (lastEmitted k (emissions ToLower tests definitions)) as [d'|] eqn:Hl;
    [|done].
  injection Hk as ->.
  apply lastEmitted_elem_of, emissions_elem_of in Hl
    as (advisory & affectedPkg & Hadv & Hun & Hpkg & Hem).
  exists advisory, affectedPkg. do 3 (split; [done|]).
  unfold factEmissions in Hem.
  destruct (decide (vendorID (References (Def_Metadata advisory)) ≠ "")) as [Hid|Hid].
  - apply list_elem_of_singleton in Hem. unfold vendorEmission in Hem.
    injection Hem as -> ->. simpl. do 4 (split; [done|]). left. done.
  - apply list_elem_of_In, in_map_iff in Hem as (cve & Hem & Hcve).
    unfold singleEmission in Hem. injection Hem as <- <-. simpl.
    do 4 (split; [done|]). right.
    split; [by destruct (decide (vendorID (References (Def_Metadata advisory)) = ""))|].
    exists cve. by rewrite list_elem_of_In.
Qed.

Lemma parseOVAL_entries_come_from_facts_witness :
  ∃ advisory affectedPkg,
    advisory ∈ [ex_defTwoFacts]
    ∧ affectedPkg ∈ walkCriterion (Def_Criteria advisory) ex_resolved
    ∧ packageName ex_bucket = pkg_Name affectedPkg
    ∧ pkg_FixedVersion affectedPkg = "1.2-5".
Proof.
  assert (resolveTests ex_dirTwoFacts = Ok ex_resolved) as Ht by reflexivity.
  assert (parseDefinitions ex_dirTwoFacts = Ok [ex_defTwoFacts]) as Hd
    by reflexivity.
  assert (∃ defs, (parseOVAL asciiToLower ex_dirTwoFacts []).1 = Ok defs
                  ∧ defs !! ex_bucket
                    = Some {| Def_Entry := ex_variant "1.2-5" ["aarch64"] |}) as Hk.
  { exists (ex_fileOf ex_dirTwoFacts).
    split; [reflexivity | vm_compute; reflexivity]. }
  destruct (parseOVAL_entries_come_from_facts asciiToLower _ _ _ [] _ _ Ht Hd Hk)
    as (advisory & affectedPkg & Hadv & _ & Hpkg & Hname & Hv & _).
  exists advisory, affectedPkg. do 3 (split; [done|]). by rewrite <- Hv.
Defined.

Lemma resolveTests_error (dir : OVALDir) :
  is_Err (resolveTests dir)
  ↔ is_Err (objects_json dir) ∨ is_Err (states_json dir) ∨ is_Err (tests_json dir)
    ∨ ∃ objects states tests test,
        parseObjects dir = Ok objects ∧ parseStates dir = Ok states
        ∧ tests_json dir = Ok tests ∧ test ∈ tests
        ∧ dangling test objects states.
Proof.
  unfold resolveTests, parseTests.
  destruct (parseObjects dir) as [objects|e] eqn:Ho.
  2: { unfold parseObjects in Ho. destruct (objects_json dir); [done|].
       simpl. split; [by left | done]. }
  destruct (parseStates dir) as [states|e] eqn:Hs.
  2: { unfold parseStates in Hs. destruct (states_json dir); [done|].
       simpl. split; [by right; left | done]. }
  assert (¬ is_Err (objects_json dir)) as Hno.
  { unfold parseObjects in Ho. destruct (objects_json dir); [simpl; tauto | done]. }
  assert (¬ is_Err (states_json dir)) as Hns.
  { unfold parseStates in Hs. destruct (states_json dir); [simpl; tauto | done]. }
  destruct (tests_json dir) as [tests|e] eqn:Ht; simpl.
  - rewrite resolveLoop_error. split.
    + intros (test & Hin & Hd). do 3 right. by exists objects, states, tests, test.
    + intros [?|[?|[?|(o & s & t & test & [= <-] & [= <-] & [= <-] & Hin & Hd)]]];
        try done. by exists test.
  - split; [intros _; by right; right; left | done].
Qed.

(** X9: the builder fails on a product directory exactly when one of its
    four files fails to read or decode or some test has a dangling
    reference; it then returns no per-file result and leaves the
    accumulator as it was, whatever the definitions hold. *)
Theorem parseOVAL_fails_iff (ToLower : string → string) (dir : OVALDir)
    (vendorCVEs0 : list VendorCVE) :
  (is_Err (parseOVAL ToLower dir vendorCVEs0).1
   ↔ is_Err (objects_json dir) ∨ is_Err (states_json dir)
     ∨ is_Err (tests_json dir) ∨ is_Err (definitions_json dir)
     ∨ ∃ objects states tests test,
         parseObjects dir = Ok objects ∧ parseStates dir = Ok states
         ∧ tests_json dir = Ok tests ∧ test ∈ tests
         ∧ dangling test objects states)
  ∧ (is_Err (parseOVAL ToLower dir vendorCVEs0).1 →
     (parseOVAL ToLower dir vendorCVEs0).2 = vendorCVEs0).
Proof.
  pose proof (resolveTests_error dir) as Hr.
  unfold parseOVAL, parseDefinitions.
  destruct (resolveTests dir) as [tests|e]; simpl in *.
  - destruct (definitions_json dir) as [definitions|e]; simpl.
    + split; [|done]. split; [done|].
      intros [?|[?|[?|[?|?]]]]; try done; apply Hr; tauto.
    + split; [|done]. split; [tauto | done].
  - split; [|done]. split; [|done]. intros _.
    destruct Hr as [Hr _]. destruct (Hr I) as [?|[?|[?|?]]]; tauto.
Qed.

Lemma insertAll_is_Some (k : bucket) (d : DefinitionSpecial)
    (l : list (bucket * DefinitionSpecial)) :
  (k, d) ∈ l → is_Some (insertAll ∅ l !! k).
Proof.
  intros Hin. rewrite insertAll_lookup.
  destruct (lastEmitted_is_Some _ _ _ Hin) as [d' ->]. by eexists.
Qed.

(** X10: a fact of a processed definition without a canonical vendor
    identifier emits one entry per record of the definition (the vendor's
    own, the bulletins, the CVE cross-references), each under the bucket of
    the package and of that record's identifier, each carrying that record
    alone with its identifier cleared; every one of these buckets is in the
    per-file result. *)
Theorem parseOVAL_without_vendorID (ToLower : string → string) (dir : OVALDir)
    (tests : gmap string resolvedTest) (definitions : list Definition_)
    (vendorCVEs0 : list VendorCVE) (advisory : Definition_) (affectedPkg : pkg) :
  resolveTests dir = Ok tests →
  parseDefinitions dir = Ok definitions →
  advisory ∈ definitions →
  processed advisory →
  affectedPkg ∈ walkCriterion (Def_Criteria advisory) tests →
  vendorID (References (Def_Metadata advisory)) = "" →
  factEmissions ToLower (Def_Metadata advisory) affectedPkg
    = map (fun cve : CVEEntry =>
             ({| packageName := pkg_Name affectedPkg;
                 vulnerabilityID := Entry_ID cve |},
              {| Def_Entry :=
                   {| Entry_CVEs := [ {| Entry_ID := "";
                                         Entry_Severity := Entry_Severity cve |} ];
                      Entry_FixedVersion := pkg_FixedVersion affectedPkg;
                      AffectedCPEList :=
                        AffectedCPEs (Meta_Advisory (Def_Metadata advisory));
                      Entry_Arches := pkg_Arches affectedPkg |} |}))
          (vendorCVE ToLower (Def_Metadata advisory)
           :: map (bduEntryOf ToLower) (BDUs (Meta_Advisory (Def_Metadata advisory)))
           ++ map (cveEntryOf ToLower) (CVEs (Meta_Advisory (Def_Metadata advisory))))
  ∧ length (factEmissions ToLower (Def_Metadata advisory) affectedPkg)
    = 1 + length (BDUs (Meta_Advisory (Def_Metadata advisory)))
        + length (CVEs (Meta_Advisory (Def_Metadata advisory)))
  ∧ ∃ defs,
      (parseOVAL ToLower dir vendorCVEs0).1 = Ok defs
      ∧ ∀ cve, cve ∈ recordsOf ToLower (Def_Metadata advisory) →
          is_Some (defs !! {| packageName := pkg_Name affectedPkg;
                              vulnerabilityID := Entry_ID cve |}).
Proof.
  intros Ht Hd Hadv Hun Hpkg Hid.
  assert (factEmissions ToLower (Def_Metadata advisory) affectedPkg
          = map (singleEmission (Def_Metadata advisory) affectedPkg)
                (recordsOf ToLower (Def_Metadata advisory))) as Hem.
  { unfold factEmissions. by rewrite decide_False by (by intros []). }
  split; [exact Hem|]. split.
  { rewrite Hem, length_map. unfold recordsOf. simpl.
    rewrite length_app, !length_map. lia. }
  rewrite (parseOVAL_eq _ _ _ _ _ Ht Hd). eexists. split; [done|].
  intros cve Hcve.
  apply (insertAll_is_Some _
           (singleEmission (Def_Metadata advisory) affectedPkg cve).2).
  apply emissions_elem_of. exists advisory, affectedPkg.
  do 3 (split; [done|]). rewrite Hem.
  apply list_elem_of_In.
  apply (in_map (singleEmission (Def_Metadata advisory) affectedPkg)).
  by apply list_elem_of_In.
Qed.

Lemma parseOVAL_without_vendorID_witness :
  length (factEmissions asciiToLower (Def_Metadata ex_defBulletin)
            {| pkg_Name := "libfoo"; pkg_FixedVersion := "1.2-4";
               pkg_Arches := ["x86_64"; "i586"] |})
  = 1 + length (BDUs (Meta_Advisory (Def_Metadata ex_defBulletin)))
      + length (CVEs (Meta_Advisory (Def_Metadata ex_defBulletin))).
Proof.
  assert (resolveTests ex_dirBulletin = Ok ex_resolved) as Ht by reflexivity.
  assert (parseDefinitions ex_dirBulletin = Ok [ex_defBulletin]) as Hd
    by reflexivity.
  refine (proj1 (proj2 (parseOVAL_without_vendorID asciiToLower ex_dirBulletin
                          ex_resolved [ex_defBulletin] [] ex_defBulletin
                          _ Ht Hd _ _ _ _))).
  - left.
  - reflexivity.
  - vm_compute. left.
  - reflexivity.
Defined.

(** ** The advisory merger *)

(** X11: [mergeAdvisories] leaves every bucket the file does not name as
    it was, gives a bucket that is new the incoming entry as its only
    entry, and its result has the buckets of the running map and those of
    the file, no other. *)
Theorem mergeAdvisories_buckets (advisories : gmap bucket AdvisorySpecial)
    (defs : gmap bucket DefinitionSpecial) :
  (∀ k, defs !! k = None →
        mergeAdvisories advisories defs !! k = advisories !! k)
  ∧ (∀ k def, advisories !! k = None → defs !! k = Some def →
        mergeAdvisories advisories defs !! k
        = Some {| Entries := [Def_Entry def] |})
  ∧ dom (mergeAdvisories advisories defs) = dom advisories ∪ dom defs.
Proof.
  split; [|split].
  - intros k Hk. by rewrite mergeAdvisories_lookup, Hk.
  - intros k def Ha Hk. by rewrite mergeAdvisories_lookup, Hk, Ha.
  - apply set_eq. intros k.
    rewrite elem_of_union, !elem_of_dom, mergeAdvisories_lookup.
    destruct (defs !! k) as [def|], (advisories !! k) as [old|];
      rewrite ?is_Some_alt; tauto.
Qed.

(** X12: [mergeAdvisories] never removes, reorders or rewrites an entry of
    a bucket: every entry keeps its position, its vulnerability records,
    its fixed version and its architectures (only its platform list may
    change), and the bucket grows by at most one entry.  In particular the
    records of an incoming entry that matches an existing one are
    dropped. *)
Theorem mergeAdvisories_keeps_entries (advisories : gmap bucket AdvisorySpecial)
    (defs : gmap bucket DefinitionSpecial) (k : bucket) (old : AdvisorySpecial) :
  advisories !! k = Some old →
  ∃ new,
    mergeAdvisories advisories defs !! k = Some new
    ∧ length (Entries old) ≤ length (Entries new) ≤ S (length (Entries old))
    ∧ ∀ i e, Entries old !! i = Some e →
        ∃ e', Entries new !! i = Some e'
              ∧ Entry_CVEs e' = Entry_CVEs e
              ∧ Entry_FixedVersion e' = Entry_FixedVersion e
              ∧ Entry_Arches e' = Entry_Arches e.
Proof.
  intros Hold. rewrite mergeAdvisories_lookup, Hold.
  destruct (defs !! k) as [def|].
  2: { exists old. split; [done|]. split; [lia|]. intros i e Hi. by exists e. }
  rewrite mergeBucket_folded. eexists. split; [done|].
  unfold foldedBucket. simpl.
  destruct (existsb _ (Entries old)).
  - rewrite length_map. split; [lia|]. intros i e Hi.
    eexists. split; [by apply lookup_map_Some|].
    by destruct (sameVariant e (Def_Entry def)).
  - rewrite length_app. simpl. split; [lia|]. intros i e Hi.
    exists e. split; [|done]. rewrite lookup_app_l; [done|].
    by eapply lookup_lt_Some.
Qed.

Lemma mergeAdvisories_keeps_entries_witness :
  ∃ new,
    mergeAdvisories {[ ex_bucket := {| Entries := [ex_entry] |} ]}
                    (ex_fileOf ex_dirArchA) !! ex_bucket = Some new
    ∧ length (Entries new) ≤ 2.
Proof.
  assert (({[ ex_bucket := {| Entries := [ex_entry] |} ]}
           : gmap bucket AdvisorySpecial) !! ex_bucket
          = Some {| Entries := [ex_entry] |}) as Hold by (vm_compute; reflexivity).
  destruct (mergeAdvisories_keeps_entries _ (ex_fileOf ex_dirArchA) _ _ Hold)
    as (new & Hnew & [_ Hlen] & _).
  exists new. split; [exact Hnew | exact Hlen].
Defined.

Lemma mergePairs_lookup (l : list (bucket * DefinitionSpecial))
    (advisories : gmap bucket AdvisorySpecial) (k : bucket) :
  NoDup l.*1 →
  foldl (fun m p => mergeOne p.1 p.2 m) advisories l !! k
  = match (list_to_map l : gmap bucket DefinitionSpecial) !! k with
    | None => advisories !! k
    | Some def =>
        Some match advisories !! k with
             | Some old => mergeBucket old def
             | None => {| Entries := [Def_Entry def] |}
             end
    end.
Proof.
  revert advisories. induction l as [|[i x] l IH]; intros advisories Hnd.
  { simpl. by rewrite lookup_empty. }
  rewrite fmap_cons in Hnd. apply NoDup_cons in Hnd as [Hi Hnd].
  cbn [foldl fst snd]. rewrite (IH _ Hnd), list_to_map_cons.
  destruct (decide (i = k)) as [->|Hne].
  - rewrite lookup_insert_eq.
    rewrite (proj1 (not_elem_of_list_to_map l k) Hi).
    unfold mergeOne. destruct (advisories !! k); by rewrite lookup_insert_eq.
  - rewrite lookup_insert_ne by done.
    assert (mergeOne i x advisories !! k = advisories !! k) as ->; [|done].
    unfold mergeOne. destruct (advisories !! i); by rewrite lookup_insert_ne.
Qed.

(** X13: the order in which the entries of the file are visited plays no
    part in the result of [mergeAdvisories]: folding them in, in any
    order, gives the same map. *)
Theorem mergeAdvisories_order_irrelevant (advisories : gmap bucket AdvisorySpecial)
    (defs : gmap bucket DefinitionSpecial) (l : list (bucket * DefinitionSpecial)) :
  l ≡ₚ map_to_list defs →
  foldl (fun m p => mergeOne p.1 p.2 m) advisories l
  = mergeAdvisories advisories defs.
Proof.
  intros Hperm.
  assert (NoDup l.*1) as Hnd.
  { rewrite Hperm. apply NoDup_fst_map_to_list. }
  assert ((list_to_map l : gmap bucket DefinitionSpecial) = defs) as Hmap.
  { rewrite <- (list_to_map_to_list defs).
    apply list_to_map_proper; [done | done]. }
  apply map_eq. intros k.
  by rewrite (mergePairs_lookup _ _ _ Hnd), Hmap, mergeAdvisories_lookup.
Qed.

Lemma mergeAdvisories_order_irrelevant_witness :
  foldl (fun m p => mergeOne p.1 p.2 m) ∅
        (reverse (map_to_list (ex_fileOf ex_dirBulletin)))
  = mergeAdvisories ∅ (ex_fileOf ex_dirBulletin).
Proof.
  apply (mergeAdvisories_order_irrelevant ∅ (ex_fileOf ex_dirBulletin)).
  apply reverse_Permutation.
Defined.

Lemma foldedBucket_nonempty (old : AdvisorySpecial) (d : Entry) :
  Entries (foldedBucket old d) ≠ [].
Proof.
  unfold foldedBucket. simpl.
  destruct (Entries old) as [|e l]; simpl; [done|].
  destruct (sameVariant e d || existsb _ l); [done|]. by destruct l.
Qed.

(** X14: the map merged from the per-file results of a run, starting from
    the empty map, has a bucket exactly when some file has it, and no
    bucket of it is without an entry. *)
Theorem mergeAdvisories_run_buckets (files : list (gmap bucket DefinitionSpecial)) :
  (∀ k, is_Some (foldl mergeAdvisories ∅ files !! k)
        ↔ ∃ defs, defs ∈ files ∧ is_Some (defs !! k))
  ∧ map_Forall (fun _ adv => Entries adv ≠ []) (foldl mergeAdvisories ∅ files).
Proof.
  induction files as [|f files [IHdom IHne]] using rev_ind.
  { split; [|apply map_Forall_empty]. intros k. simpl. rewrite lookup_empty. split.
    - intros [? [=]].
    - intros (defs & []%elem_of_nil & _). }
  rewrite foldl_app. simpl. split.
  - intros k. rewrite mergeAdvisories_lookup. split.
    + intros Hk. destruct (f !! k) as [def|] eqn:Hf.
      * exists f. split; [apply elem_of_app; right; left | by rewrite Hf].
      * apply IHdom in Hk as (defs & Hin & Hs). exists defs.
        split; [apply elem_of_app; by left | done].
    + intros (defs & Hin & Hs). destruct (f !! k) as [def|] eqn:Hf; [by eexists|].
      apply IHdom. apply elem_of_app in Hin as [Hin|Hin]; [by exists defs|].
      apply list_elem_of_singleton in Hin as ->. rewrite Hf in Hs. by destruct Hs.
  - intros k adv. rewrite mergeAdvisories_lookup.
    destruct (f !! k) as [def|]; [|apply IHne].
    intros [= <-]. destruct (foldl mergeAdvisories ∅ files !! k); [|done].
    rewrite mergeBucket_folded. apply foldedBucket_nonempty.
Qed.

(** ** The update run *)

Section RunWrites.

Variable ToLower : string → string.
Variable storageFails : DBCall → bool.











End RunWrites.





Section RunSucceeds.

Variable ToLower : string → string.

Lemma parseOVAL_parses (dir : OVALDir) (vendorCVEs0 : list VendorCVE) :
  ¬ is_Err (parseOVAL ToLower dir vendorCVEs0).1 ↔ parses dir.
Proof.
  unfold parses, parseOVAL.
  destruct (resolveTests dir); simpl; [|tauto].
  destruct (parseDefinitions dir); simpl; tauto.
Qed.

Lemma productsLoop_parses (products : list OVALDir)
    (advisories : gmap bucket AdvisorySpecial) (vendorCVEs0 : list VendorCVE) :
  ¬ is_Err (productsLoop ToLower products advisories vendorCVEs0).1
  ↔ Forall parses products.
Proof.
  revert advisories vendorCVEs0.
  induction products as [|f rest IH]; intros advisories v0; simpl.
  { split; [constructor | tauto]. }
  rewrite Forall_cons, <- (parseOVAL_parses f v0).
  destruct (parseOVAL ToLower f v0) as [[definitions|e] v]; simpl.
  - rewrite IH. tauto.
  - tauto.
Qed.

Lemma branchesLoop_parses (branches : list (result (list OVALDir)))
    (advisories : gmap bucket AdvisorySpecial) (vendorCVEs0 : list VendorCVE) :
  ¬ is_Err (branchesLoop ToLower branches advisories vendorCVEs0).1
  ↔ readable (Ok branches).
Proof.
  unfold readable. revert advisories vendorCVEs0.
  induction branches as [|[products|e] rest IH]; intros advisories v0; simpl.
  - split; [constructor | tauto].
  - rewrite Forall_cons, <- (productsLoop_parses products advisories v0).
    destruct (productsLoop ToLower products advisories v0) as [[advisories1|e] v];
      simpl.
    + rewrite IH. tauto.
    + tauto.
  - rewrite Forall_cons. tauto.
Qed.

Lemma putVendorLoop_reliable (cves : list VendorCVE) (tx : list DBCall) :
  ¬ is_Err (putVendorLoop (fun _ => false) cves tx).
Proof.
  revert tx. induction cves as [|cve cves IH]; intros tx; simpl; [tauto|].
  apply IH.
Qed.

Lemma saveLoop_reliable (advisories : list (bucket * AdvisorySpecial))
    (tx : list DBCall) :
  ¬ is_Err (saveLoop (fun _ => false) advisories tx).
Proof.
  revert tx. induction advisories as [|[bkt advisory] l IH]; intros tx; simpl;
    [tauto|]. apply IH.
Qed.

End RunSucceeds.

(** X16: with a storage that refuses no write, a run succeeds exactly when
    the root and every branch directory can be listed and every product
    directory parses; one unreadable directory, one undecodable file or
    one dangling test reference fails the whole run. *)
Theorem Update_succeeds_iff_readable (ToLower : string → string) (root : Tree)
    (p : Process) :
  (Update ToLower (fun _ => false) root p).1 = None ↔ readable root.
Proof.
  unfold Update. destruct root as [branches|e]; [|done].
  rewrite <- (branchesLoop_parses ToLower branches ∅ (proc_vendorCVEs p)).
  destruct (branchesLoop ToLower branches ∅ (proc_vendorCVEs p))
    as [[advisories|e] v]; simpl; [|split; [done | tauto]].
  split; [tauto|]. intros _.
  unfold putVendorCVEs, BatchUpdate. simpl.
  pose proof (putVendorLoop_reliable v []) as Hv.
  destruct (putVendorLoop (fun _ => false) v []) as [tx1|]; [|by destruct Hv].
  unfold save, BatchUpdate, put. simpl.
  pose proof (saveLoop_reliable (map_to_list advisories) ([] ++ [PutDataSource]))
    as Hs.
  by destruct (saveLoop (fun _ => false) (map_to_list advisories) _);
    [|destruct Hs].
Qed.

(** ** The query *)

Lemma rawLoop_error (unmarshal : string → option AdvisorySpecial)
    (rawAdvisories : list (string * string)) (cpe : string)
    (advisories : list TAdvisory) :
  is_Err (rawLoop unmarshal rawAdvisories cpe advisories)
  ↔ ∃ vulnID content, (vulnID, content) ∈ rawAdvisories
      ∧ String.length content ≠ 0 ∧ unmarshal content = None.
Proof.
  revert advisories.
  induction rawAdvisories as [|[vulnID content] rest IH]; intros advisories; simpl.
  { split; [done | intros (? & ? & []%elem_of_nil & _)]. }
  destruct (decide (String.length content = 0)) as [Hlen|Hlen].
  - rewrite IH. split.
    + intros (v & c & Hin & Hc). exists v, c. split; [by right | done].
    + intros (v & c & Hin & Hc & Hu).
      apply elem_of_cons in Hin as [[= -> ->]|Hin]; [done | by exists v, c].
  - destruct (unmarshal content) as [adv|] eqn:Hadv.
    + rewrite IH. split.
      * intros (v & c & Hin & Hc). exists v, c. split; [by right | done].
      * intros (v & c & Hin & Hc & Hu).
        apply elem_of_cons in Hin as [[= -> ->]|Hin]; [congruence | by exists v, c].
    + simpl. split; [|done]. intros _. exists vulnID, content.
      split; [left | done].
Qed.

(** X18: over the stored values of a package, the query fails exactly when
    some value that is not empty does not decode, and then returns no
    result at all, also none of the values that decode; an empty value
    never makes it fail. *)
Theorem Get_fails_iff_undecodable
    (unmarshal : string → option AdvisorySpecial)
    (ForEachAdvisory : string → result (list (string * string)))
    (pkgName cpe : string) (rawAdvisories : list (string * string)) :
  ForEachAdvisory pkgName = Ok rawAdvisories →
  is_Err (Get unmarshal ForEachAdvisory pkgName cpe)
  ↔ ∃ vulnID content, (vulnID, content) ∈ rawAdvisories
      ∧ String.length content ≠ 0 ∧ unmarshal content = None.
Proof. intros Hraw. unfold Get. rewrite Hraw. apply rawLoop_error. Qed.

Lemma Get_fails_iff_undecodable_witness :
  is_Err (Get (fun _ => None) ex_store "libfoo" "cpe:/o:alt:workstation:10").
Proof.
  apply (Get_fails_iff_undecodable (fun _ => None) ex_store "libfoo"
           "cpe:/o:alt:workstation:10" [("BDU:2024-00001", "bulletin-advisory")]).
  - reflexivity.
  - exists "BDU:2024-00001", "bulletin-advisory".
    split; [left | split; [vm_compute; discriminate | reflexivity]].
Defined.

(** ** The resolver and the criteria walk together *)

(** X19: a test without an object reference is not dropped: when the file
    resolves, a criteria node that refers to it yields a fact with an empty
    package name, an empty fixed version and no architecture. *)
Theorem walkCriterion_test_without_object (dir : OVALDir)
    (objects : gmap string RPMInfoObject) (states : gmap string RPMInfoState)
    (tests : list RPMInfoTest) (test : RPMInfoTest) :
  parseObjects dir = Ok objects →
  parseStates dir = Ok states →
  parseTests dir = Ok tests →
  Forall (fun test' => ¬ dangling test' objects states) tests →
  lastWith Test_ID (Test_ID test) tests = Some test →
  ObjectRef test = "" →
  ∃ rpmTests,
    resolveTests dir = Ok rpmTests
    ∧ walkCriterion (mkCriteria [ {| TestRef := Test_ID test |} ] []) rpmTests
      = [ {| pkg_Name := ""; pkg_FixedVersion := ""; pkg_Arches := [] |} ].
Proof.
  intros Hobjects Hstates Htests Hall Hlast Hempty. eexists. split.
  - unfold resolveTests. rewrite Hobjects, Hstates, Htests.
    by apply resolveLoop_Ok.
  - rewrite walkCriterion_node. simpl.
    rewrite foldl_insert_lookup, Hlast. unfold followTestRefs.
    by rewrite decide_True.
Qed.

Lemma walkCriterion_test_without_object_witness :
  ∃ rpmTests,
    resolveTests {| objects_json := Ok []; states_json := Ok [];
                    tests_json := Ok [ex_testStateOnly];
                    definitions_json := Ok [] |} = Ok rpmTests
    ∧ walkCriterion (mkCriteria [ {| TestRef := Test_ID ex_testStateOnly |} ] [])
                    rpmTests
      = [ {| pkg_Name := ""; pkg_FixedVersion := ""; pkg_Arches := [] |} ].
Proof.
  apply (walkCriterion_test_without_object _ ∅ ∅ [ex_testStateOnly]).
  - reflexivity.
  - reflexivity.
  - reflexivity.
  - constructor; [|constructor]. intros [Ho _]. by apply Ho.
  - reflexivity.
  - reflexivity.
Defined.
